(** * syzoj-ng-judge, src/utils.ts: path joining, bounded file reads,
      record merging and the retrying download routine

    The development has two halves.  The first half embeds the functions of
    [src/utils.ts] as executable definitions; the second half states and
    proves the properties of these functions.

    The functions of [utils.ts] talk to three collaborators that are not
    part of the repository: Node's [path] module, Node's [fs] module and the
    HTTP client ([axios] with [agentkeepalive]).  Each collaborator is given
    an explicit model here:
    - [path.join] and [path.normalize] are modelled on path segments, with
      the POSIX semantics the judge runs under;
    - the file system answers every call of [readFileLimited] from a
      description of the file, which says what the file holds and which of
      the calls fail;
    - the remote source answers every attempt of [download] with a script:
      what the request promise does, and which stream and timer events are
      delivered afterwards, in order. *)

From Stdlib Require Import ZArith List String Ascii Bool Lia.
From Stdlib Require Import DecimalString.
Import ListNotations.

Local Open Scope string_scope.

(** ** Completions shared by the synchronous code *)

(** A synchronous JavaScript call either returns a value or throws. *)
Inductive completion (E A : Type) : Type :=
| Returns (a : A)
| Throws (e : E).
Arguments Returns {E A} a.
Arguments Throws {E A} e.

Definition throws {E A : Type} (c : completion E A) : bool :=
  match c with
  | Returns _ => false
  | Throws _ => true
  end.

(** ** Node's [path] module, POSIX flavour *)

Module Path.

Definition slash : ascii := "/"%char.

(** [path.split(sep)]: the segments between the separators.  A string
    without separator is one segment; an empty string is one empty segment. *)
Fixpoint split (s : string) : list string :=
  match s with
  | EmptyString => [EmptyString]
  | String c rest =>
      if Ascii.eqb c slash then EmptyString :: split rest
      else match split rest with
           | [] => [String c EmptyString]
           | seg :: segs => String c seg :: segs
           end
  end.

(** One step of [normalizeString]: [stack] holds the segments kept so far,
    the last one first.  Empty segments and ["."] are dropped; [".."] removes
    the last kept segment unless there is none or it is itself [".."], in
    which case it is kept when the path is relative ([allowAboveRoot]) and
    dropped when the path is absolute. *)
Definition push_segment (allowAboveRoot : bool) (stack : list string)
  (seg : string) : list string :=
  if (seg =? "") || (seg =? ".") then stack
  else if seg =? ".." then
    match stack with
    | top :: below =>
        if top =? ".." then (if allowAboveRoot then ".." :: stack else stack)
        else below
    | [] => if allowAboveRoot then [".."] else []
    end
  else seg :: stack.

Definition normalizeString (path : string) (allowAboveRoot : bool) : string :=
  String.concat "/" (rev (fold_left (push_segment allowAboveRoot) (split path) [])).

Fixpoint last_char (s : string) : option ascii :=
  match s with
  | EmptyString => None
  | String c EmptyString => Some c
  | String _ rest => last_char rest
  end.

Definition is_slash (c : option ascii) : bool :=
  match c with
  | Some c => Ascii.eqb c slash
  | None => false
  end.

Definition isAbsolute (path : string) : bool := is_slash (String.get 0 path).

(** [path.normalize(path)] *)
Definition normalize (path : string) : string :=
  if path =? "" then "."
  else
    let absolute := isAbsolute path in
    let trailingSeparator := is_slash (last_char path) in
    let p := normalizeString path (negb absolute) in
    if p =? "" then
      (if absolute then "/" else if trailingSeparator then "./" else ".")
    else
      let p := if trailingSeparator then p ++ "/" else p in
      if absolute then "/" ++ p else p.

(** [path.join(...paths)]: the non-empty arguments, separated by ["/"], then
    normalized; ["."] when nothing is left. *)
Definition join (paths : list string) : string :=
  match filter (fun p => negb (p =? "")) paths with
  | [] => "."
  | kept => normalize (String.concat "/" kept)
  end.

End Path.

(** ** [safelyJoinPath] *)

Record MappedPath : Type := {
  outside : string;
  inside : string
}.

(** The first argument of [safelyJoinPath] is [MappedPath | string]. *)
Inductive BasePath : Type :=
| Plain (path : string)
| Mapped (path : MappedPath).

(** The error of [doSafelyJoin]; its message is ["Invalid path join: "]
    followed by the JSON rendering of the two fields. *)
Record InvalidPathJoin : Type := {
  err_basePath : string;
  err_paths : list string
}.

Definition doSafelyJoin (basePath : string) (paths : list string)
  : completion InvalidPathJoin string :=
  let childPath := Path.normalize (Path.join paths) in
  if String.prefix ".." childPath
  then Throws {| err_basePath := basePath; err_paths := paths |}
  else Returns (Path.join [basePath; childPath]).

(** The object literal of the [MappedPath] branch evaluates [inside] first,
    then [outside]; the first throw leaves the function. *)
Definition safelyJoinPath (basePath : BasePath) (paths : list string)
  : completion InvalidPathJoin BasePath :=
  match basePath with
  | Plain base =>
      match doSafelyJoin base paths with
      | Returns joined => Returns (Plain joined)
      | Throws e => Throws e
      end
  | Mapped base =>
      match doSafelyJoin (inside base) paths with
      | Throws e => Throws e
      | Returns joinedInside =>
          match doSafelyJoin (outside base) paths with
          | Throws e => Throws e
          | Returns joinedOutside =>
              Returns (Mapped {| outside := joinedOutside; inside := joinedInside |})
          end
      end
  end.

(** ** Asynchronous functions with [try], [catch] and [finally] *)

(** What an [async] function hands to its caller. *)
Inductive promise (E A : Type) : Type :=
| Resolved (v : A)
| Rejected (e : E).
Arguments Resolved {E A} v.
Arguments Rejected {E A} e.

Module Async.

Section WithFrame.

(** [F] is the frame of the running function (its local variables and the
    calls it has made so far), [E] the type of thrown values and [R] the
    type of the values it returns. *)
Variables F E R : Type.

(** How a statement completes: control goes on to the next statement, or a
    [return] or a [throw] is on its way out. *)
Inductive step (A : Type) : Type :=
| Next (a : A)
| Return (v : R)
| Throw (e : E).

Definition M (A : Type) : Type := F -> step A * F.

Definition pure {A : Type} (a : A) : M A := fun fr => (Next A a, fr).
Definition return_ {A : Type} (v : R) : M A := fun fr => (Return A v, fr).
Definition throw {A : Type} (e : E) : M A := fun fr => (Throw A e, fr).

Definition bind {A B : Type} (m : M A) (k : A -> M B) : M B :=
  fun fr =>
    match m fr with
    | (Next _ a, fr') => k a fr'
    | (Return _ v, fr') => (Return B v, fr')
    | (Throw _ e, fr') => (Throw B e, fr')
    end.

(** [try { body } catch (e) { handler e }] *)
Definition try_catch {A : Type} (body : M A) (handler : E -> M A) : M A :=
  fun fr =>
    match body fr with
    | (Throw _ e, fr') => handler e fr'
    | done => done
    end.

(** [try { body } finally { finalizer }]: the finalizer runs however the body
    completes; when it completes normally the completion of the body stands,
    and a [return] or [throw] of the finalizer replaces it. *)
Definition try_finally {A : Type} (body : M A) (finalizer : M unit) : M A :=
  fun fr =>
    let '(done, fr') := body fr in
    match finalizer fr' with
    | (Next _ _, fr'') => (done, fr'')
    | (Return _ v, fr'') => (Return A v, fr'')
    | (Throw _ e, fr'') => (Throw A e, fr'')
    end.

(** Running the body of an [async] function whose every path ends in a
    [return] or a [throw]. *)
Definition run (body : M Empty_set) (fr : F) : promise E R * F :=
  match body fr with
  | (Next _ impossible, _) => match impossible with end
  | (Return _ v, fr') => (Resolved v, fr')
  | (Throw _ e, fr') => (Rejected e, fr')
  end.

End WithFrame.

Arguments Next {E R A} a.
Arguments Return {E R A} v.
Arguments Throw {E R A} e.
Arguments pure {F E R A} a _.
Arguments return_ {F E R A} v _.
Arguments throw {F E R A} e _.
Arguments bind {F E R A B} m k _.
Arguments try_catch {F E R A} body handler _.
Arguments try_finally {F E R A} body finalizer _.
Arguments run {F E R} body fr.

End Async.

Declare Scope async_scope.
Delimit Scope async_scope with async.
Notation "x <- m ;; k" := (Async.bind m (fun x => k))
  (at level 61, m at next level, right associativity) : async_scope.
Notation "m ;; k" := (Async.bind m (fun _ => k))
  (at level 61, right associativity) : async_scope.

(** ** The file system seen by [readFileLimited] *)

(** A rejected [fs] promise carries an error with a [code]. *)
Record fs_error : Type := { code : string }.

(** An opened file: the bytes it holds and how its handle behaves.
    - [stat_fails], [read_fails], [close_fails]: the error the call rejects
      with, if it does;
    - [read_short]: a cap on the number of bytes one [read] delivers (a read
      may come back short). *)
Record fs_file : Type := {
  file_bytes : list Byte.byte;
  stat_fails : option fs_error;
  read_fails : option fs_error;
  read_short : option nat;
  close_fails : option fs_error
}.

Inductive fs_entry : Type :=
| OpenFails (e : fs_error)
| Opens (f : fs_file).

Definition filesystem : Type := string -> fs_entry.

(** The calls made on the file system, in order. *)
Inductive fs_call : Type :=
| CallOpen (path : string)
| CallStat
| CallRead (length position : Z)
| CallClose.

Module ReadFile.

(** The frame of [readFileLimited]: the variable [file] (undefined until the
    assignment) and the calls made so far. *)
Record frame : Type := {
  file : option fs_file;
  calls : list fs_call
}.

Definition M : Type -> Type := Async.M frame fs_error string.

Definition entered : frame := {| file := None; calls := [] |}.

Definition log (c : fs_call) : M unit :=
  fun fr => (Async.Next tt, {| file := file fr; calls := calls fr ++ [c] |}).

Definition settle {A : Type} (failure : option fs_error) (value : A) : M A :=
  match failure with
  | Some e => Async.throw e
  | None => Async.pure value
  end.

Local Open Scope async_scope.

(** [await fs.promises.open(filePath, "r")] *)
Definition fs_open (fs : filesystem) (filePath : string) : M fs_file :=
  log (CallOpen filePath) ;;
  match fs filePath with
  | OpenFails e => Async.throw e
  | Opens f => Async.pure f
  end.

(** [(await file.stat()).size] *)
Definition stat_size (f : fs_file) : M Z :=
  log CallStat ;;
  settle (stat_fails f) (Z.of_nat (List.length (file_bytes f))).

(** [Buffer.allocUnsafe(size)] refuses a negative size. *)
Definition allocUnsafe (size : Z) : M Z :=
  if (size <? 0)%Z then Async.throw {| code := "ERR_OUT_OF_RANGE" |}
  else Async.pure size.

(** The bytes a [read] of [length] bytes at [position] delivers. *)
Definition bytes_delivered (f : fs_file) (length position : Z) : list Byte.byte :=
  let available := firstn (Z.to_nat length) (skipn (Z.to_nat position) (file_bytes f)) in
  match read_short f with
  | Some cap => firstn cap available
  | None => available
  end.

(** [await file.read(buf, 0, length, position)]: the first [bytesRead] bytes
    of [buf] afterwards. *)
Definition file_read (f : fs_file) (length position : Z) : M (list Byte.byte) :=
  log (CallRead length position) ;;
  settle (read_fails f) (bytes_delivered f length position).

(** [await file.close()] *)
Definition file_close (f : fs_file) : M unit :=
  log CallClose ;;
  settle (close_fails f) tt.

Definition assign_file (f : fs_file) : M unit :=
  fun fr => (Async.Next tt, {| file := Some f; calls := calls fr |}).

Definition read_file_var : M (option fs_file) :=
  fun fr => (Async.Next (file fr), fr).

Section WithDecoder.

(** [buf.toString("utf8", 0, bytesRead)], applied to the bytes read. *)
Variable toStringUtf8 : list Byte.byte -> string.

Definition body (fs : filesystem) (filePath : string) (lengthLimit : Z)
  : M Empty_set :=
  Async.try_finally
    (Async.try_catch
       (Async.try_catch
          (f <- fs_open fs filePath ;; assign_file f)
          (fun e => if code e =? "ENOENT" then Async.return_ "" else Async.throw e) ;;
        opened <- read_file_var ;;
        match opened with
        | None => Async.throw {| code := "ERR_UNDEFINED" |} (* not reached *)
        | Some f =>
            actualSize <- stat_size f ;;
            buf_length <- allocUnsafe (Z.min actualSize lengthLimit) ;;
            bytes <- file_read f buf_length 0 ;;
            Async.return_ (toStringUtf8 bytes)
        end)
       (fun _ => Async.return_ ""))
    (opened <- read_file_var ;;
     match opened with
     | Some f => file_close f
     | None => Async.pure tt
     end).

Definition readFileLimited (fs : filesystem) (filePath : string) (lengthLimit : Z)
  : promise fs_error string * list fs_call :=
  let '(settled, fr) := Async.run (body fs filePath lengthLimit) entered in
  (settled, calls fr).

End WithDecoder.

End ReadFile.

(** ** The collaborators of [download] *)

(** [config.downloadRetry] and [config.downloadTimeout] (milliseconds). *)
Record Config : Type := {
  downloadRetry : Z;
  downloadTimeout : Z
}.

(** A keep-alive agent: [secure] tells [AgentKeepAlive.HttpsAgent] from
    [AgentKeepAlive], [agent_timeout] is the [timeout] of its options and
    [agent_serial] numbers the constructions of the process. *)
Record Agent : Type := {
  agent_secure : bool;
  agent_timeout : Z;
  agent_serial : nat
}.

(** The value bound by [catch (e)]. *)
Inductive js_value : Type :=
| JsUndefined
| JsError (text : string).

(** The interpolation [${e}] of a template literal. *)
Definition interpolate (e : js_value) : string :=
  match e with
  | JsUndefined => "undefined"
  | JsError text => text
  end.

(** The interpolation [`${n}`] of a number that is an integer of magnitude
    below [10^21]: all its digits.  From [10^21] on JavaScript prints a
    number in exponent form, which this definition does not give. *)
Definition decimal (n : Z) : string := NilZero.string_of_int (Z.to_int n).

(** What happens while the promise of one attempt is awaited, once the
    response has arrived:
    - [Chunk bytes]: the response stream hands [bytes] to the piped writer;
    - [Deadline]: [downloadTimeout] milliseconds have passed since
      [setTimeout];
    - [Finish]: the writer emits ["finish"];
    - [WriteError cause]: the writer emits ["error"] with [cause]. *)
Inductive stream_event : Type :=
| Chunk (bytes : list Byte.byte)
| Deadline
| Finish
| WriteError (cause : string).

(** What the request of one attempt does: the promise of [axios] stays
    pending for ever, rejects with an error rendered as [e], or resolves
    with a response stream, after which [events] are delivered in order.
    The events are those that reach the listeners of the attempt, which are
    attached once the response has arrived. *)
Inductive request_behaviour : Type :=
| NoResponse
| RequestError (e : string)
| Response (events : list stream_event).

(** A source says how it treats each attempt; attempts are numbered from 0. *)
Definition source : Type := nat -> request_behaviour.

(** The observable actions of the module, in the order they are made. *)
Inductive action : Type :=
| NewAgent (a : Agent)
| DestroyAgent (a : Agent)
| CreateWriteStream (path : string)
| Request (url : string) (httpAgent httpsAgent : Agent)
| SetTimeout (ms : Z)
| TimerFires
| ClearTimeout
| Write (path : string) (bytes : list Byte.byte)
| CloseStream (path : string).

(** The contents of the files of the local disk. *)
Definition disk : Type := string -> list Byte.byte.

Definition store (files : disk) (path : string) (bytes : list Byte.byte) : disk :=
  fun p => if p =? path then bytes else files p.

Inductive timer_state : Type := NoTimer | Armed | Fired | Cleared.

(** The handle of a write stream: open; being released (the writer has
    ended or failed, or [close()] has been called on it, and the descriptor
    is given back later, after events that no attempt waits for); released. *)
Inductive writer_state : Type := WriterOpen | WriterClosing | WriterClosed.

(** The state of one attempt: the disk, [abortController.signal.aborted],
    the timer of [setTimeout], the handle of [fileStream] and the actions
    made so far. *)
Record attempt_state : Type := {
  files : disk;
  aborted : bool;
  timer : timer_state;
  writer : writer_state;
  emitted : list action
}.

Inductive attempt_outcome : Type :=
| Succeeded
| Failed (e : js_value)
| Pending.

Module Attempt.

Definition emit (a : action) (st : attempt_state) : attempt_state :=
  {| files := files st; aborted := aborted st; timer := timer st;
     writer := writer st; emitted := emitted st ++ [a] |}.

(** [fs.createWriteStream(destination)] opens with flag ["w"]: the file is
    created or truncated.  The iteration also makes a new [AbortController]. *)
Definition createWriteStream (destination : string) (before : disk) : attempt_state :=
  {| files := store before destination [];
     aborted := false;
     timer := NoTimer;
     writer := WriterOpen;
     emitted := [CreateWriteStream destination] |}.

(** [setTimeout(() => abortController.abort(), ms)] *)
Definition setTimeout (ms : Z) (st : attempt_state) : attempt_state :=
  emit (SetTimeout ms)
    {| files := files st; aborted := aborted st; timer := Armed;
       writer := writer st; emitted := emitted st |}.

(** The deadline passes: an armed timer runs its callback, once; a timer
    that has fired or has been cleared does nothing. *)
Definition deadline (st : attempt_state) : attempt_state :=
  match timer st with
  | Armed =>
      emit TimerFires
        {| files := files st; aborted := true; timer := Fired;
           writer := writer st; emitted := emitted st |}
  | _ => st
  end.

(** [clearTimeout(timeoutTimer)] cancels an armed timer and is without
    effect on a timer that has fired. *)
Definition clearTimeout (st : attempt_state) : attempt_state :=
  emit ClearTimeout
    {| files := files st; aborted := aborted st;
       timer := match timer st with Armed => Cleared | t => t end;
       writer := writer st; emitted := emitted st |}.

(** [response.data.pipe(fileStream)]: a chunk is appended to the file while
    the writer is open.  A chunk handed to the writer counts as written:
    this is what the file holds once the writer has emitted ["finish"];
    after an ["error"] of the writer the file may hold less. *)
Definition pipe_chunk (destination : string) (bytes : list Byte.byte)
  (st : attempt_state) : attempt_state :=
  match writer st with
  | WriterOpen =>
      emit (Write destination bytes)
        {| files := store (files st) destination (files st destination ++ bytes);
           aborted := aborted st; timer := timer st;
           writer := writer st; emitted := emitted st |}
  | _ => st
  end.

(** The release of the handle is asked for: an open handle is from now on
    being released, which takes place later; nothing changes for a handle
    that is being released or is released already. *)
Definition release (w : writer_state) : writer_state :=
  match w with
  | WriterOpen => WriterClosing
  | other => other
  end.

(** A writer that has emitted ["finish"] or ["error"] goes on to release its
    handle by itself ([autoClose]); the descriptor is given back after the
    event. *)
Definition auto_close (st : attempt_state) : attempt_state :=
  {| files := files st; aborted := aborted st; timer := timer st;
     writer := release (writer st); emitted := emitted st |}.

(** [fileStream.close()]: asks the writer to end and to release its handle.
    The call returns at once and is not awaited: the handle is released
    later.  On a writer that is releasing its handle already the call
    changes nothing. *)
Definition close (destination : string) (st : attempt_state) : attempt_state :=
  emit (CloseStream destination) (auto_close st).

(** [finish(callback)]: the timer is cleared, then the callback runs. *)
Definition finish (st : attempt_state) : attempt_state :=
  auto_close (clearTimeout st).

(** [await new Promise(...)]: the events are delivered until the writer
    emits ["finish"] ([resolve()]) or ["error"] ([reject()], called without
    the error); when they run out first, the promise stays pending. *)
Fixpoint await_stream (destination : string) (events : list stream_event)
  (st : attempt_state) : attempt_outcome * attempt_state :=
  match events with
  | [] => (Pending, st)
  | Chunk bytes :: later => await_stream destination later (pipe_chunk destination bytes st)
  | Deadline :: later => await_stream destination later (deadline st)
  | Finish :: _ => (Succeeded, finish st)
  | WriteError _ :: _ => (Failed JsUndefined, finish st)
  end.

End Attempt.

(** The two agents made when the module is loaded. *)
Record Pool : Type := {
  httpAgent : Agent;
  httpsAgent : Agent
}.

Definition agentOptions_timeout : Z := 60 * 60 * 1000.

(** The settlement of the promise of [download]; [None] stands for a promise
    that never settles. *)
Definition settlement : Type := option (promise string unit).

Record run : Type := {
  settled : settlement;
  files_after : disk;
  trace : list action
}.

Definition after (prefix : list action) (r : run) : run :=
  {| settled := settled r; files_after := files_after r; trace := prefix ++ trace r |}.

Section Download.

Variable pool : Pool.
Variable config : Config.
Variables url destination description : string.
Variable src : source.

(** The body of one iteration up to the end of [try] and its [finally]:
    the [finally] block runs when the [try] block is left, which a pending
    [await] never does. *)
Definition attempt (behaviour : request_behaviour) (before : disk)
  : attempt_outcome * attempt_state :=
  let st := Attempt.createWriteStream destination before in
  let st := Attempt.emit (Request url (httpAgent pool) (httpsAgent pool)) st in
  match behaviour with
  | NoResponse => (Pending, st)
  | RequestError e => (Failed (JsError e), Attempt.close destination st)
  | Response events =>
      let st := Attempt.setTimeout (downloadTimeout config) st in
      match Attempt.await_stream destination events st with
      | (Pending, st) => (Pending, st)
      | (outcome, st) => (outcome, Attempt.close destination st)
      end
  end.

Definition timeout_message : string :=
  "Failed to download " ++ description ++ ": timed-out after "
    ++ decimal (downloadTimeout config) ++ "ms for "
    ++ decimal (downloadRetry config) ++ " times".

Definition failure_message (e : js_value) : string :=
  "Failed to download " ++ description ++ ": " ++ interpolate e.

(** The [catch] block of the last iteration. *)
Definition final_error (st : attempt_state) (e : js_value) : string :=
  if aborted st then timeout_message else failure_message e.

(** The [for] loop.  [remaining] is [retry + 1], the number of iterations
    still allowed, and [attempt_no] counts the iterations already made. *)
Fixpoint retry_loop (remaining : nat) (attempt_no : nat) (before : disk) : run :=
  match remaining with
  | O => {| settled := Some (Resolved tt); files_after := before; trace := [] |}
  | S retry =>
      let '(outcome, st) := attempt (src attempt_no) before in
      match outcome with
      | Succeeded =>
          {| settled := Some (Resolved tt); files_after := files st; trace := emitted st |}
      | Pending =>
          {| settled := None; files_after := files st; trace := emitted st |}
      | Failed e =>
          if negb (retry =? 0)%nat
          then after (emitted st) (retry_loop retry (S attempt_no) (files st))
          else {| settled := Some (Rejected (final_error st e));
                  files_after := files st; trace := emitted st |}
      end
  end.

(** [for (let retry = config.downloadRetry - 1; retry >= 0; retry--)] *)
Definition download_call (before : disk) : run :=
  retry_loop (Z.to_nat (downloadRetry config)) 0 before.

End Download.

(** The immediately invoked function that defines [download]: it makes the
    two agents and returns the closure that uses them. *)
Definition module_init : Pool * list action :=
  let httpAgent :=
    {| agent_secure := false; agent_timeout := agentOptions_timeout; agent_serial := 0 |} in
  let httpsAgent :=
    {| agent_secure := true; agent_timeout := agentOptions_timeout; agent_serial := 1 |} in
  ({| httpAgent := httpAgent; httpsAgent := httpsAgent |},
   [NewAgent httpAgent; NewAgent httpsAgent]).

Definition download : Config -> string -> string -> string -> source -> disk -> run :=
  download_call (fst module_init).

(** One call of [download] made by the process, with the configuration and
    the source it meets. *)
Record call : Type := {
  call_config : Config;
  call_url : string;
  call_destination : string;
  call_description : string;
  call_source : source
}.

Definition run_call (c : call) (before : disk) : run :=
  download (call_config c) (call_url c) (call_destination c)
    (call_description c) (call_source c) before.

Fixpoint run_calls (calls : list call) (before : disk) : list action :=
  match calls with
  | [] => []
  | c :: later =>
      let r := run_call c before in
      trace r ++ run_calls later (files_after r)
  end.

(** The actions of a process that loads the module and then makes [calls]. *)
Definition process (calls : list call) (before : disk) : list action :=
  snd module_init ++ run_calls calls before.

(** ** [merge] *)

Module Merge.

Section WithKeysAndValues.

(** [K] is the type of the property keys, [V] the type of the plain values.
    An entry of an [OverridableRecord<K, V>] is a value or a reducer; the
    code tells them apart with [typeof ... === "function"]. *)
Variable K : Type.
Variable K_eq_dec : forall a b : K, {a = b} + {a <> b}.
Variable V : Type.

Inductive entry : Type :=
| Value (v : V)
| Reducer (f : V -> V).

(** An own data property: the entry it holds, and whether an enumeration
    of the object shows it.  Records with accessor properties of their own
    (getters, setters) are outside the model. *)
Record property : Type := {
  held : entry;
  enumerable : bool
}.

(** What an object inherits: the entry that a lookup finds along the
    prototype chain, under a key for which the object has no own
    property. *)
Definition heritage : Type := K -> option entry.

(** An object used as a record: its own properties, under distinct keys,
    and what it inherits.  The order in which the list holds the properties
    plays no part in what a lookup finds. *)
Record object : Type := {
  own : list (K * property);
  inherits : heritage
}.

(** What the host gives to every object written as a literal:
    - [object_prototype]: what such an object inherits, the members of
      [Object.prototype] (["toString"], ["constructor"], ...);
    - [through_setter key]: an assignment under [key] to an object without
      an own property [key] makes no own property but runs an inherited
      setter; this is the key ["__proto__"];
    - [reparent e]: what the object inherits once that setter has run with
      [e]; [None] when the setter leaves the object as it is. *)
Record host : Type := {
  object_prototype : heritage;
  through_setter : K -> bool;
  reparent : entry -> option heritage
}.

Variable env : host.

(** [Reflect.ownKeys(o)]: the keys of all own properties, enumerable or
    not.  The list tells which keys the object has; the order in which
    JavaScript lists them (integer-like keys first) is not modelled. *)
Definition ownKeys (o : object) : list K := map fst (own o).

Fixpoint find (props : list (K * property)) (key : K) : option property :=
  match props with
  | [] => None
  | (k, p) :: rest => if K_eq_dec k key then Some p else find rest key
  end.

(** The entry of the own property under [key], if there is one. *)
Definition own_entry (o : object) (key : K) : option entry :=
  option_map held (find (own o) key).

(** [o[key]], read: the own property, or else what the object inherits. *)
Definition get (o : object) (key : K) : option entry :=
  match find (own o) key with
  | Some p => Some (held p)
  | None => inherits o key
  end.

(** An own property under [key] gets the entry [e]; a property that is
    missing is made, enumerable. *)
Fixpoint put (props : list (K * property)) (key : K) (e : entry)
  : list (K * property) :=
  match props with
  | [] => [(key, {| held := e; enumerable := true |})]
  | (k, p) :: rest =>
      if K_eq_dec k key
      then (k, {| held := e; enumerable := enumerable p |}) :: rest
      else (k, p) :: put rest key e
  end.

(** [o[key] = e], for an object whose own properties are writable: an own
    property is overwritten; without an own property the assignment runs
    the inherited setter when there is one, and makes an own property
    otherwise. *)
Definition set (o : object) (key : K) (e : entry) : object :=
  match find (own o) key with
  | Some _ => {| own := put (own o) key e; inherits := inherits o |}
  | None =>
      if through_setter env key then
        match reparent env e with
        | Some inherited => {| own := own o; inherits := inherited |}
        | None => o
        end
      else {| own := put (own o) key e; inherits := inherits o |}
  end.

(** [{ ...o }]: a new object literal with the own enumerable properties of
    [o]. *)
Definition spread (o : object) : object :=
  {| own := filter (fun kp => enumerable (snd kp)) (own o);
     inherits := object_prototype env |}.

(** The body of the [forEach] callback, for one key of the override. *)
Definition override_key (overrideRecord : object) (result : object) (key : K) : object :=
  match get overrideRecord key with
  | None => result (* not reached: [key] is an own key of [overrideRecord] *)
  | Some (Reducer valueOrReducer) =>
      match get result key with
      | Some (Reducer oldValueOrReducer) =>
          set result key
            (Reducer (fun olderValue => valueOrReducer (oldValueOrReducer olderValue)))
      | _ => set result key (Reducer valueOrReducer)
      end
  | Some (Value valueOrReducer) => set result key (Value valueOrReducer)
  end.

(** [merge(baseRecord, overrideRecord)]; [None] is a null or undefined
    override, for which the base itself is returned. *)
Definition merge (baseRecord : object) (overrideRecord : option object) : object :=
  match overrideRecord with
  | None => baseRecord
  | Some override =>
      fold_left (override_key override) (ownKeys override) (spread baseRecord)
  end.

End WithKeysAndValues.

Arguments Value {V} v.
Arguments Reducer {V} f.
Arguments held {V} p.
Arguments enumerable {V} p.
Arguments Build_property {V} held enumerable.
Arguments own {K V} o.
Arguments inherits {K V} o.
Arguments Build_object {K V} own inherits.
Arguments object_prototype {K V} h.
Arguments through_setter {K V} h key.
Arguments reparent {K V} h e.
Arguments Build_host {K V} object_prototype through_setter reparent.
Arguments ownKeys {K V} o.
Arguments find {K} K_eq_dec {V} props key.
Arguments own_entry {K} K_eq_dec {V} o key.
Arguments get {K} K_eq_dec {V} o key.
Arguments put {K} K_eq_dec {V} props key e.
Arguments set {K} K_eq_dec {V} env o key e.
Arguments spread {K V} env o.
Arguments override_key {K} K_eq_dec {V} env overrideRecord result key.
Arguments merge {K} K_eq_dec {V} env baseRecord overrideRecord.

End Merge.

(** * Vocabulary of the properties *)

(** The base path named in the error of [safelyJoinPath]: for a
    [MappedPath] the [inside] path is joined first. *)
Definition first_base (basePath : BasePath) : string :=
  match basePath with
  | Plain base => base
  | Mapped base => inside base
  end.

Definition map_base (f : string -> string) (basePath : BasePath) : BasePath :=
  match basePath with
  | Plain base => Plain (f base)
  | Mapped base => Mapped {| outside := f (outside base); inside := f (inside base) |}
  end.

(** A file of five bytes whose handle cannot be closed, in a file system
    that holds nothing else. *)
Definition hello : list Byte.byte :=
  [Byte.x68; Byte.x65; Byte.x6c; Byte.x6c; Byte.x6f].

Definition unclosable : fs_file :=
  {| file_bytes := hello; stat_fails := None; read_fails := None;
     read_short := None; close_fails := Some {| code := "EIO" |} |}.

Definition healthy : fs_file :=
  {| file_bytes := hello; stat_fails := None; read_fails := None;
     read_short := None; close_fails := None |}.

Definition sample_fs : filesystem :=
  fun p =>
    if p =? "/judge/unclosable" then Opens unclosable
    else if p =? "/judge/hello" then Opens healthy
    else OpenFails {| code := "ENOENT" |}.

(** Sources and configurations of the examples. *)
Definition two_failures_then_body : source :=
  fun attempt_no =>
    match attempt_no with
    | 0%nat => Response [Chunk [Byte.x70; Byte.x61]; Deadline;
                         WriteError "Error: ENOSPC: no space left on device, write"]
    | 1%nat => RequestError "AxiosError: Request failed with status code 502"
    | _ => Response [Chunk [Byte.x68; Byte.x65]; Chunk [Byte.x6c; Byte.x6c; Byte.x6f]; Finish]
    end.

Definition always_refused : source :=
  fun attempt_no =>
    match attempt_no with
    | 0%nat => Response [Deadline; WriteError "Error: ENOSPC: no space left on device, write"]
    | _ => RequestError "Error: connect ECONNREFUSED"
    end.


(** A source that accepts every request and never answers it. *)
Definition silent : source := fun _ => NoResponse.

(** A source that answers, while the destination cannot be written: the
    writer reports [cause] on every attempt. *)
Definition unwritable (cause : string) : source :=
  fun _ => Response [Chunk [Byte.x68; Byte.x65]; WriteError cause].

Definition three_tries : Config := {| downloadRetry := 3; downloadTimeout := 100 |}.

Definition two_tries : Config := {| downloadRetry := 2; downloadTimeout := 100 |}.

Definition stale_disk : disk :=
  fun p => if p =? "/judge/data.zip" then [Byte.x6f; Byte.x6c; Byte.x64] else [].

(** What the events of a response make of the awaited promise. *)
Fixpoint stream_outcome (events : list stream_event) : attempt_outcome :=
  match events with
  | [] => Pending
  | Chunk _ :: later => stream_outcome later
  | Deadline :: later => stream_outcome later
  | Finish :: _ => Succeeded
  | WriteError _ :: _ => Failed JsUndefined
  end.

(** What a request behaviour makes of the attempt. *)
Definition script_outcome (behaviour : request_behaviour) : attempt_outcome :=
  match behaviour with
  | NoResponse => Pending
  | RequestError e => Failed (JsError e)
  | Response events => stream_outcome events
  end.

(** The attempt ends with an error, of whichever kind. *)
Definition fails (behaviour : request_behaviour) : bool :=
  match script_outcome behaviour with
  | Failed _ => true
  | _ => false
  end.

Definition succeeds (behaviour : request_behaviour) : bool :=
  match script_outcome behaviour with
  | Succeeded => true
  | _ => false
  end.

(** The bytes piped into the writer before it emits ["finish"] or
    ["error"]. *)
Fixpoint written (events : list stream_event) : list Byte.byte :=
  match events with
  | Chunk bytes :: later => bytes ++ written later
  | Deadline :: later => written later
  | _ => []
  end.

(** A deadline passes before the writer emits ["finish"] or ["error"]. *)
Fixpoint deadline_passes (events : list stream_event) : bool :=
  match events with
  | Chunk _ :: later => deadline_passes later
  | Deadline :: _ => true
  | _ => false
  end.

(** The actions made while the promise is awaited, for a timer in state [t]
    and a writer in state [w]. *)
Fixpoint stream_trace (destination : string) (t : timer_state) (w : writer_state)
  (events : list stream_event) : list action :=
  match events with
  | [] => []
  | Chunk bytes :: later =>
      match w with
      | WriterOpen => Write destination bytes :: stream_trace destination t w later
      | _ => stream_trace destination t w later
      end
  | Deadline :: later =>
      match t with
      | Armed => TimerFires :: stream_trace destination Fired w later
      | _ => stream_trace destination t w later
      end
  | Finish :: _ => [ClearTimeout]
  | WriteError _ :: _ => [ClearTimeout]
  end.

(** The actions of one attempt, read off the behaviour of the request. *)
Definition attempt_trace (pool : Pool) (config : Config) (url destination : string)
  (behaviour : request_behaviour) : list action :=
  [CreateWriteStream destination; Request url (httpAgent pool) (httpsAgent pool)]
    ++ match behaviour with
       | NoResponse => []
       | RequestError _ => [CloseStream destination]
       | Response events =>
           SetTimeout (downloadTimeout config)
             :: stream_trace destination Armed WriterOpen events
             ++ match stream_outcome events with
                | Pending => []
                | _ => [CloseStream destination]
                end
       end.

(** The bytes one attempt leaves in the destination. *)
Definition written_by (behaviour : request_behaviour) : list Byte.byte :=
  match behaviour with
  | Response events => written events
  | _ => []
  end.

(** The timer of the attempt fires before the attempt concludes. *)
Definition times_out (behaviour : request_behaviour) : bool :=
  match behaviour with
  | Response events => deadline_passes events
  | _ => false
  end.

Definition is_request (a : action) : bool :=
  match a with
  | Request _ _ _ => true
  | _ => false
  end.

(** The number of times the network is contacted. *)
Definition network_contacts (t : list action) : nat :=
  List.length (filter is_request t).

Definition is_timer_action (a : action) : bool :=
  match a with
  | SetTimeout _ | TimerFires | ClearTimeout => true
  | _ => false
  end.

(** The timer actions of a trace, in order. *)
Definition timer_actions (t : list action) : list action := filter is_timer_action t.

Definition is_agent_action (a : action) : bool :=
  match a with
  | NewAgent _ | DestroyAgent _ => true
  | _ => false
  end.

(** The constructions and destructions of agents in a trace, in order. *)
Definition agent_actions (t : list action) : list action := filter is_agent_action t.

(** The request, if [a] is one, goes through the two agents of [pool]. *)
Definition uses_pool (pool : Pool) (a : action) : Prop :=
  match a with
  | Request _ plain secure => plain = httpAgent pool /\ secure = httpsAgent pool
  | _ => True
  end.

(** An action that neither makes nor destroys an agent, and that goes
    through the agents of [pool] when it is a request. *)
Definition keeps_pool (pool : Pool) (a : action) : Prop :=
  is_agent_action a = false /\ uses_pool pool a.

Definition is_armed (t : timer_state) : bool :=
  match t with
  | Armed => true
  | _ => false
  end.

(** What [merge] leaves under a key, from the entry of the base and the
    entry of the override under that key: a plain value of the override
    replaces whatever the base holds; a reducer of the override is composed
    after a reducer of the base, and replaces anything else. *)
Definition merged_entry {V : Type} (base override : option (Merge.entry V))
  : option (Merge.entry V) :=
  match override with
  | None => base
  | Some (Merge.Value v) => Some (Merge.Value v)
  | Some (Merge.Reducer g) =>
      match base with
      | Some (Merge.Reducer f) => Some (Merge.Reducer (fun olderValue => g (f olderValue)))
      | _ => Some (Merge.Reducer g)
      end
  end.

Definition is_reducer {V : Type} (e : option (Merge.entry V)) : bool :=
  match e with
  | Some (Merge.Reducer _) => true
  | _ => false
  end.

Definition is_value {V : Type} (e : option (Merge.entry V)) : bool :=
  match e with
  | Some (Merge.Value _) => true
  | _ => false
  end.

(** The host of the examples: every object literal inherits [toString],
    which returns the same value whatever it is given, and assignments
    under ["__proto__"] go through the inherited setter. *)
Definition sample_host : Merge.host string nat :=
  {| Merge.object_prototype :=
       fun key => if key =? "toString" then Some (Merge.Reducer (fun _ => 0%nat)) else None;
     Merge.through_setter := String.eqb "__proto__";
     Merge.reparent := fun _ => None |}.

(** The object literal with the given entries, in the host of the
    examples. *)
Definition literal (entries : list (string * Merge.entry nat)) : Merge.object string nat :=
  {| Merge.own :=
       map (fun ke => (fst ke, {| Merge.held := snd ke; Merge.enumerable := true |})) entries;
     Merge.inherits := Merge.object_prototype sample_host |}.

Definition limits_base : Merge.object string nat :=
  literal [("time", Merge.Value 1000); ("memory", Merge.Reducer (fun m => m * 2)%nat)].

Definition limits_language : Merge.object string nat :=
  literal [("memory", Merge.Reducer (fun m => m + 64)%nat); ("output", Merge.Value 32);
           ("toString", Merge.Reducer S)].

Definition limits_task : Merge.object string nat :=
  literal [("time", Merge.Reducer (fun t => t * 3)%nat); ("memory", Merge.Reducer S)].

(** Replays the calls that a trace makes on write streams: [opened] tells
    whether a stream has been created on which [close()] has not been
    called yet.  The replay fails when a stream is created before [close()]
    was called on the one before, when [close()] is called or bytes are
    handed over without such a stream, or when any of this happens on a
    path other than [destination].  Calling [close()] does not wait for the
    descriptor: the replay says nothing about when it is released. *)
Fixpoint replay_writers (destination : string) (opened : bool) (t : list action)
  : option bool :=
  match t with
  | [] => Some opened
  | CreateWriteStream p :: later =>
      if negb opened && (p =? destination)
      then replay_writers destination true later
      else None
  | CloseStream p :: later =>
      if opened && (p =? destination)
      then replay_writers destination false later
      else None
  | Write p _ :: later =>
      if opened && (p =? destination)
      then replay_writers destination opened later
      else None
  | _ :: later => replay_writers destination opened later
  end.

(** The promise of [download] is still pending. *)
Definition unsettled (s : settlement) : bool :=
  match s with
  | None => true
  | Some _ => false
  end.

Definition no_tries : Config := {| downloadRetry := 0; downloadTimeout := 100 |}.

(** The segments [normalizeString] keeps for a list of segments, the last
    one first. *)
Definition kept (allowAboveRoot : bool) (segs : list string) : list string :=
  fold_left (Path.push_segment allowAboveRoot) segs [].

(** The segments a path is made of once ["."], empty segments and resolved
    [".."] are gone, in the order of the path. *)
Definition segments (path : string) : list string :=
  rev (kept (negb (Path.isAbsolute path)) (Path.split path)).

Fixpoint has_slash (s : string) : bool :=
  match s with
  | EmptyString => false
  | String c rest => Ascii.eqb c Path.slash || has_slash rest
  end.

(** A segment that names something: not empty, not ["."], not [".."]. *)
Definition named (seg : string) : bool :=
  negb ((seg =? "") || (seg =? ".") || (seg =? "..")).

(** The shape of the segments kept by [normalizeString], the last one
    first: names above, and below them [".."] segments only, which occur
    only when the path may climb above its start. *)
Fixpoint shaped (allowAboveRoot : bool) (stack : list string) : bool :=
  match stack with
  | [] => true
  | seg :: below =>
      if seg =? ".." then allowAboveRoot && forallb (String.eqb "..") below
      else named seg && shaped allowAboveRoot below
  end.

(** A segment that [normalizeString] does not drop. *)
Definition counts (seg : string) : bool := negb ((seg =? "") || (seg =? ".")).

(** The path [normalize] builds from the kept segments [stack] (the last
    one first) of a path that is absolute or not and ends with a separator
    or not. *)
Definition render (absolute trailingSeparator : bool) (stack : list string) : string :=
  let p := String.concat "/" (rev stack) in
  if p =? "" then
    (if absolute then "/" else if trailingSeparator then "./" else ".")
  else
    let p := if trailingSeparator then p ++ "/" else p in
    if absolute then "/" ++ p else p.

(** [joined] stays under [base]: it is absolute exactly when [base] is, and
    its segments are the segments of [base] followed by names only. *)
Definition contained (base joined : string) : Prop :=
  Path.isAbsolute joined = Path.isAbsolute base /\
  exists below,
    segments joined = (segments base ++ below)%list /\
    Forall (fun seg => named seg = true) below.

(** The path is relative and its first segment is [".."] or a name that
    begins with two dots. *)
Definition begins_with_dots (path : string) : bool :=
  negb (Path.isAbsolute path) &&
  match segments path with
  | first :: _ => String.prefix ".." first
  | [] => false
  end.

(** A source that treats the first attempt as [first] says and every later
    attempt as [later] says, counting the later attempts from 0. *)
Definition preceded_by (first : request_behaviour) (later : source) : source :=
  fun attempt_no =>
    match attempt_no with
    | 0%nat => first
    | S n => later n
    end.

(** The response arrives with [bytes] of the body, then nothing more comes
    and the deadline passes; the writer has nothing to report. *)
Definition stalls (bytes : list Byte.byte) : request_behaviour :=
  Response [Chunk bytes; Deadline].

(** The response arrives with [bytes] of the body, then the connection is
    lost: the response stream fails, of which the piped writer is told
    nothing. *)
Definition cut_off (bytes : list Byte.byte) : request_behaviour :=
  Response [Chunk bytes].

(** The response arrives, its body is written and flushed. *)
Definition hello_body : request_behaviour :=
  Response [Chunk hello; Finish].

(** The source times out on the first two attempts and answers ["hello"] on
    the third. *)
Definition timeouts_then_hello : source :=
  preceded_by (stalls []) (preceded_by (stalls []) (fun _ => hello_body)).

(** The source does not answer the first attempt and answers ["hello"] on
    every later one. *)
Definition unanswered_then_hello : source :=
  preceded_by NoResponse (fun _ => hello_body).



(** The arguments of [join] that are not empty: the ones it joins. *)
Definition joined_parts (paths : list string) : list string :=
  filter (fun p => negb (p =? "")) paths.

(** The segments of the joined arguments as they are written, in order. *)
Definition raw_segments (paths : list string) : list string :=
  flat_map Path.split (joined_parts paths).

(** The joined arguments make a relative path: the first of them does not
    begin with a separator. *)
Definition joined_relative (paths : list string) : bool :=
  match joined_parts paths with
  | first :: _ => negb (Path.isAbsolute first)
  | [] => true
  end.

(** Walking the segments from [depth] directories below the start, the walk
    climbs above the start at some point. *)
Fixpoint escapes (depth : nat) (segs : list string) : bool :=
  match segs with
  | [] => false
  | seg :: later =>
      if (seg =? "") || (seg =? ".") then escapes depth later
      else if seg =? ".." then
        match depth with
        | O => true
        | S above => escapes above later
        end
      else escapes (S depth) later
  end.

Definition has_dots (stack : list string) : bool :=
  existsb (String.eqb "..") stack.

(** * Properties *)

(** ** Paths *)

Example normalize_samples :
  Path.normalize "a/b/../../../c" = "../c" /\
  Path.normalize "/a/../../b/" = "/b/" /\
  Path.normalize "./x//y/." = "x/y" /\
  Path.normalize "a/.." = "." /\
  Path.join ["a"; ""; "../b"; "c/"] = "b/c/" /\
  Path.join [] = ".".
Proof. repeat split; reflexivity. Qed.

(** A traversal that leaves the base is refused, and so is a harmless name
    that merely begins with two dots; an absolute segment is joined under
    the base; the base itself is never inspected. *)
Example safelyJoinPath_samples :
  throws (safelyJoinPath (Plain "/judge/work") ["a"; "../../etc/passwd"]) = true /\
  throws (safelyJoinPath (Plain "/judge/work") ["..hidden"]) = true /\
  safelyJoinPath (Plain "/judge/work") ["/etc/passwd"] = Returns (Plain "/judge/work/etc/passwd") /\
  safelyJoinPath (Plain "../up") ["a"; ".."; "b"] = Returns (Plain "../up/b") /\
  safelyJoinPath (Mapped {| outside := "/out/"; inside := "/in" |}) ["a/"; "b/.."]
    = Returns (Mapped {| outside := "/out/a"; inside := "/in/a" |}).
Proof. repeat split; reflexivity. Qed.

Lemma doSafelyJoin_unfold (basePath : string) (paths : list string) :
  doSafelyJoin basePath paths =
    if String.prefix ".." (Path.normalize (Path.join paths))
    then Throws {| err_basePath := basePath; err_paths := paths |}
    else Returns (Path.join [basePath; Path.normalize (Path.join paths)]).
Proof. reflexivity. Qed.

(** ** [readFileLimited] *)

Section ReadFileLimitedProperties.

Variable toStringUtf8 : list Byte.byte -> string.

Local Abbreviation readFileLimited := (ReadFile.readFileLimited toStringUtf8).

(** The bytes handed to the decoder are a prefix of the file, and there are
    at most [length] of them. *)
Lemma bytes_delivered_prefix (f : fs_file) (length : Z) :
  exists k : nat,
    (k <= Z.to_nat length)%nat /\
    ReadFile.bytes_delivered f length 0 = firstn k (file_bytes f).
Proof.
  unfold ReadFile.bytes_delivered. cbn [Z.to_nat skipn].
  destruct (read_short f) as [cap |].
  - exists (Nat.min cap (Z.to_nat length)). split; [lia |].
    now rewrite firstn_firstn.
  - exists (Z.to_nat length). split; [lia | reflexivity].
Qed.

(** C9, as amended.  For a non-negative [lengthLimit]:
    - when the file cannot be opened (it does not exist, or for any other
      reason) the promise resolves with the empty string and nothing is
      closed;
    - when the file is opened, its handle is closed exactly once, as the
      last call; the promise rejects only when that [close] fails, and then
      with the error of [close]; otherwise it resolves with the empty string
      when [stat] or [read] fails, and else with the decoding of the bytes
      read at position 0, a prefix of the file of at most
      [min(size, lengthLimit)] bytes. *)
Theorem readFileLimited_spec (fs : filesystem) (filePath : string) (lengthLimit : Z) :
  (0 <= lengthLimit)%Z ->
  readFileLimited fs filePath lengthLimit =
    match fs filePath with
    | OpenFails _ => (Resolved "", [CallOpen filePath])
    | Opens f =>
        let size := Z.of_nat (List.length (file_bytes f)) in
        let wanted := Z.min size lengthLimit in
        let value :=
          match stat_fails f, read_fails f with
          | None, None => toStringUtf8 (ReadFile.bytes_delivered f wanted 0)
          | _, _ => ""
          end in
        (match close_fails f with
         | Some e => Rejected e
         | None => Resolved value
         end,
         ([CallOpen filePath; CallStat]
            ++ match stat_fails f with Some _ => [] | None => [CallRead wanted 0] end
            ++ [CallClose])%list)
    end /\
  forall f : fs_file,
    exists k : nat,
      (Z.of_nat k <= Z.min (Z.of_nat (List.length (file_bytes f))) lengthLimit)%Z /\
      ReadFile.bytes_delivered f (Z.min (Z.of_nat (List.length (file_bytes f))) lengthLimit) 0
        = firstn k (file_bytes f).
Proof.
  intros Hlimit. split.
  - unfold ReadFile.readFileLimited, ReadFile.body, Async.run,
      Async.try_finally, Async.try_catch, Async.bind, ReadFile.fs_open,
      ReadFile.log, ReadFile.read_file_var, ReadFile.assign_file.
    cbn [ReadFile.entered ReadFile.file ReadFile.calls app].
    destruct (fs filePath) as [e | f]; cbn.
    + destruct (code e =? "ENOENT"); reflexivity.
    + unfold ReadFile.stat_size, ReadFile.allocUnsafe, ReadFile.file_read,
        ReadFile.file_close, ReadFile.settle, ReadFile.log, Async.bind,
        Async.throw, Async.pure, Async.return_.
      cbn [ReadFile.file ReadFile.calls app].
      assert (Hwanted : (Z.min (Z.of_nat (List.length (file_bytes f))) lengthLimit <? 0)%Z = false)
        by (apply Z.ltb_ge; lia).
      destruct (stat_fails f) as [es |]; cbn.
      * destruct (close_fails f); reflexivity.
      * rewrite Hwanted. cbn.
        destruct (read_fails f) as [er |]; cbn;
          destruct (close_fails f); reflexivity.
  - intros f.
    destruct (bytes_delivered_prefix f
                (Z.min (Z.of_nat (List.length (file_bytes f))) lengthLimit))
      as (k & Hk & Hbytes).
    exists k. split; [lia | exact Hbytes].
Qed.

End ReadFileLimitedProperties.

(** The promise rejects when the handle of an opened file cannot be closed:
    the [finally] block awaits [file.close()] outside of every [catch]. *)
Lemma readFileLimited_rejects_when_close_fails :
  fst (ReadFile.readFileLimited string_of_list_byte sample_fs "/judge/unclosable" 3)
    = Rejected {| code := "EIO" |}.
Proof. reflexivity. Qed.

Lemma readFileLimited_spec_witness :
  (0 <= 3)%Z /\
  ReadFile.readFileLimited string_of_list_byte sample_fs "/judge/hello" 3
    = (Resolved "hel", [CallOpen "/judge/hello"; CallStat; CallRead 3 0; CallClose]).
Proof.
  split; [lia |].
  destruct (readFileLimited_spec string_of_list_byte sample_fs "/judge/hello" 3
              ltac:(lia)) as [Hrun _].
  rewrite Hrun. reflexivity.
Defined.

(** ** One attempt of [download] *)

Section AttemptProperties.

Variable pool : Pool.
Variable config : Config.
Variables url destination : string.

Local Abbreviation run_attempt := (attempt pool config url destination).

Lemma emitted_emit (a : action) (st : attempt_state) :
  emitted (Attempt.emit a st) = (emitted st ++ [a])%list.
Proof. reflexivity. Qed.

Lemma await_stream_outcome (events : list stream_event) (st : attempt_state) :
  fst (Attempt.await_stream destination events st) = stream_outcome events.
Proof.
  revert st. induction events as [| [bytes | | | cause] later IH]; intros st; cbn; auto.
Qed.

Lemma await_stream_emitted (events : list stream_event) (st : attempt_state) :
  emitted (snd (Attempt.await_stream destination events st))
    = (emitted st ++ stream_trace destination (timer st) (writer st) events)%list.
Proof.
  revert st. induction events as [| [bytes | | | cause] later IH]; intros st;
    cbn [Attempt.await_stream stream_trace snd].
  - now rewrite app_nil_r.
  - rewrite IH. unfold Attempt.pipe_chunk.
    destruct (writer st) eqn:Hw; cbn; rewrite ?Hw; try reflexivity.
    now rewrite <- app_assoc.
  - rewrite IH. unfold Attempt.deadline.
    destruct (timer st) eqn:Ht; cbn; rewrite ?Ht; try reflexivity.
    now rewrite <- app_assoc.
  - reflexivity.
  - reflexivity.
Qed.

Lemma await_stream_files (events : list stream_event) (st : attempt_state) (p : string) :
  writer st = WriterOpen ->
  files (snd (Attempt.await_stream destination events st)) p
    = if p =? destination then (files st destination ++ written events)%list else files st p.
Proof.
  revert st. induction events as [| [bytes | | | cause] later IH]; intros st Hw;
    cbn [Attempt.await_stream written snd].
  - rewrite app_nil_r. destruct (String.eqb_spec p destination); congruence.
  - rewrite IH; unfold Attempt.pipe_chunk; rewrite Hw; [| reflexivity].
    cbn. unfold store. rewrite String.eqb_refl.
    destruct (p =? destination); [now rewrite app_assoc | reflexivity].
  - rewrite IH; unfold Attempt.deadline.
    + destruct (timer st); reflexivity.
    + destruct (timer st); exact Hw.
  - cbn. rewrite app_nil_r. destruct (String.eqb_spec p destination); congruence.
  - cbn. rewrite app_nil_r. destruct (String.eqb_spec p destination); congruence.
Qed.

Lemma await_stream_aborted (events : list stream_event) (st : attempt_state) :
  aborted (snd (Attempt.await_stream destination events st))
    = aborted st || (is_armed (timer st) && deadline_passes events).
Proof.
  revert st. induction events as [| [bytes | | | cause] later IH]; intros st;
    cbn [Attempt.await_stream deadline_passes snd].
  - now rewrite andb_false_r, orb_false_r.
  - rewrite IH; unfold Attempt.pipe_chunk; destruct (writer st); reflexivity.
  - rewrite IH; unfold Attempt.deadline.
    destruct (timer st) eqn:Ht; cbn; rewrite ?Ht; cbn;
      now rewrite ?andb_false_r, ?orb_false_r, ?orb_true_r.
  - cbn. now rewrite andb_false_r, orb_false_r.
  - cbn. now rewrite andb_false_r, orb_false_r.
Qed.

(** The timer when the awaited promise has settled: an armed timer has fired
    when a deadline passed, and has been cleared otherwise. *)
Lemma await_stream_timer (events : list stream_event) (st : attempt_state) :
  stream_outcome events <> Pending ->
  timer (snd (Attempt.await_stream destination events st))
    = match timer st with
      | Armed => if deadline_passes events then Fired else Cleared
      | t => t
      end.
Proof.
  revert st. induction events as [| [bytes | | | cause] later IH]; intros st Hsettled;
    cbn [Attempt.await_stream deadline_passes stream_outcome snd] in *.
  - congruence.
  - rewrite IH by assumption. unfold Attempt.pipe_chunk; destruct (writer st); reflexivity.
  - rewrite IH by assumption. unfold Attempt.deadline.
    destruct (timer st) eqn:Ht; cbn; rewrite ?Ht; reflexivity.
  - cbn. destruct (timer st); reflexivity.
  - cbn. destruct (timer st); reflexivity.
Qed.


Ltac name_stream events started :=
  let o := fresh "o" in
  let st := fresh "st" in
  let Hrun := fresh "Hrun" in
  pose proof (await_stream_outcome events started) as Hrun;
  destruct (Attempt.await_stream destination events started) as [o st] eqn:?;
  cbn [fst] in Hrun; subst o.

Lemma attempt_outcome_script (behaviour : request_behaviour) (before : disk) :
  fst (run_attempt behaviour before) = script_outcome behaviour.
Proof.
  unfold attempt.
  destruct behaviour as [| e | events]; cbn [script_outcome]; try reflexivity.
  match goal with |- context [Attempt.await_stream _ _ ?s] => name_stream events s end.
  destruct (stream_outcome events); reflexivity.
Qed.

Lemma attempt_emitted_script (behaviour : request_behaviour) (before : disk) :
  emitted (snd (run_attempt behaviour before))
    = attempt_trace pool config url destination behaviour.
Proof.
  unfold run_attempt, attempt, attempt_trace.
  destruct behaviour as [| e | events]; try reflexivity.
  match goal with |- context [Attempt.await_stream _ _ ?s] =>
    pose proof (await_stream_emitted events s) as Hemitted; name_stream events s end.
  cbn [snd] in Hemitted. cbn in Hemitted.
  destruct (stream_outcome events); cbn [snd];
    unfold Attempt.close; rewrite ?emitted_emit;
    cbn [Attempt.auto_close emitted]; rewrite Hemitted; cbn;
    now rewrite ?app_nil_r.
Qed.

Lemma attempt_files_script (behaviour : request_behaviour) (before : disk) (p : string) :
  files (snd (run_attempt behaviour before)) p
    = if p =? destination then written_by behaviour else before p.
Proof.
  unfold attempt.
  destruct behaviour as [| e | events]; cbn [written_by]; try reflexivity.
  match goal with |- context [Attempt.await_stream _ _ ?s] =>
    pose proof (await_stream_files events s p eq_refl) as Hfiles; name_stream events s end.
  cbn [snd] in Hfiles. cbn in Hfiles. unfold store in Hfiles.
  rewrite String.eqb_refl in Hfiles. cbn in Hfiles.
  destruct (stream_outcome events); cbn; rewrite Hfiles;
    destruct (p =? destination); reflexivity.
Qed.

Lemma attempt_aborted_script (behaviour : request_behaviour) (before : disk) :
  aborted (snd (run_attempt behaviour before)) = times_out behaviour.
Proof.
  unfold attempt.
  destruct behaviour as [| e | events]; cbn [times_out]; try reflexivity.
  match goal with |- context [Attempt.await_stream _ _ ?s] =>
    pose proof (await_stream_aborted events s) as Haborted; name_stream events s end.
  cbn in Haborted.
  destruct (stream_outcome events); cbn; exact Haborted.
Qed.

Lemma attempt_timer_script (events : list stream_event) (before : disk) :
  stream_outcome events <> Pending ->
  timer (snd (run_attempt (Response events) before))
    = if deadline_passes events then Fired else Cleared.
Proof.
  intros Hsettled. unfold attempt.
  match goal with |- context [Attempt.await_stream _ _ ?s] =>
    pose proof (await_stream_timer events s Hsettled) as Htimer; name_stream events s end.
  cbn in Htimer.
  destruct (stream_outcome events); cbn; exact Htimer.
Qed.


End AttemptProperties.

(** ** Traces *)

Lemma network_contacts_app (t1 t2 : list action) :
  network_contacts (t1 ++ t2) = (network_contacts t1 + network_contacts t2)%nat.
Proof. unfold network_contacts. now rewrite filter_app, length_app. Qed.

Lemma stream_trace_no_request (destination : string) (events : list stream_event) :
  forall t w, filter is_request (stream_trace destination t w events) = [].
Proof.
  induction events as [| [bytes | | | cause] later IH]; intros t w; cbn; auto.
  - destruct w; cbn; auto.
  - destruct t; cbn; auto.
Qed.

(** Every attempt contacts the network once. *)
Lemma network_contacts_attempt (pool : Pool) (config : Config) (url destination : string)
  (behaviour : request_behaviour) :
  network_contacts (attempt_trace pool config url destination behaviour) = 1%nat.
Proof.
  unfold network_contacts, attempt_trace.
  destruct behaviour as [| e | events]; cbn; try reflexivity.
  rewrite filter_app, stream_trace_no_request.
  destruct (stream_outcome events); reflexivity.
Qed.

Lemma stream_trace_keeps_pool (pool : Pool) (destination : string)
  (events : list stream_event) :
  forall t w, Forall (keeps_pool pool) (stream_trace destination t w events).
Proof.
  induction events as [| [bytes | | | cause] later IH]; intros t w; cbn.
  - constructor.
  - destruct w; [constructor; [now split |] | |]; apply IH.
  - destruct t; try apply IH. constructor; [now split | apply IH].
  - constructor; [now split | constructor].
  - constructor; [now split | constructor].
Qed.

Lemma attempt_trace_keeps_pool (pool : Pool) (config : Config) (url destination : string)
  (behaviour : request_behaviour) :
  Forall (keeps_pool pool) (attempt_trace pool config url destination behaviour).
Proof.
  unfold attempt_trace. apply Forall_app. split.
  - repeat constructor.
  - destruct behaviour as [| e | events]; [constructor | repeat constructor |].
    constructor; [now split |]. apply Forall_app. split.
    + apply stream_trace_keeps_pool.
    + destruct (stream_outcome events); repeat constructor.
Qed.

Lemma keeps_pool_no_agent_action (pool : Pool) (t : list action) :
  Forall (keeps_pool pool) t -> agent_actions t = [].
Proof.
  unfold agent_actions. induction 1 as [| a t [Ha _] _ IH]; cbn; [reflexivity |].
  now rewrite Ha.
Qed.

(** The timer actions made while the promise is awaited, when it settles:
    an armed timer fires if a deadline passes first, and [clearTimeout] is
    called once, at the end. *)
Lemma timer_actions_stream (destination : string) (events : list stream_event) :
  stream_outcome events <> Pending ->
  forall t w,
    timer_actions (stream_trace destination t w events)
      = ((if is_armed t && deadline_passes events then [TimerFires] else [])
           ++ [ClearTimeout])%list.
Proof.
  unfold timer_actions.
  induction events as [| [bytes | | | cause] later IH]; intros Hsettled t w;
    cbn [stream_trace stream_outcome deadline_passes] in *.
  - congruence.
  - destruct w; cbn [filter is_timer_action]; now apply IH.
  - destruct t; cbn [filter is_timer_action is_armed andb];
      rewrite IH by assumption; reflexivity.
  - now rewrite andb_false_r.
  - now rewrite andb_false_r.
Qed.

(** ** The retry loop *)

Section RetryProperties.

Variable pool : Pool.
Variable config : Config.
Variables url destination description : string.
Variable src : source.

Local Abbreviation run_attempt := (attempt pool config url destination).
Local Abbreviation loop := (retry_loop pool config url destination description src).

(** One iteration of the loop, read off the behaviour of the source. *)
Lemma retry_loop_step (retry attempt_no : nat) (before : disk) :
  loop (S retry) attempt_no before =
    let st := snd (run_attempt (src attempt_no) before) in
    match script_outcome (src attempt_no) with
    | Succeeded =>
        {| settled := Some (Resolved tt); files_after := files st; trace := emitted st |}
    | Pending =>
        {| settled := None; files_after := files st; trace := emitted st |}
    | Failed e =>
        if negb (retry =? 0)%nat
        then after (emitted st) (loop retry (S attempt_no) (files st))
        else {| settled := Some (Rejected (final_error config description st e));
                files_after := files st; trace := emitted st |}
    end.
Proof.
  cbn [retry_loop].
  pose proof (attempt_outcome_script pool config url destination (src attempt_no) before)
    as Houtcome.
  destruct (attempt pool config url destination (src attempt_no) before) as [o st].
  cbn [fst snd] in *. subst o. reflexivity.
Qed.

Lemma fails_outcome (behaviour : request_behaviour) :
  fails behaviour = true -> exists e, script_outcome behaviour = Failed e.
Proof.
  unfold fails. destruct (script_outcome behaviour) as [| e |]; try discriminate.
  now exists e.
Qed.

Lemma succeeds_outcome (behaviour : request_behaviour) :
  succeeds behaviour = true -> script_outcome behaviour = Succeeded.
Proof.
  unfold succeeds. now destruct (script_outcome behaviour).
Qed.

(** A failure with iterations to spare is absorbed: the run is the run of the
    remaining iterations, one fewer, on the disk the failed attempt left. *)
Lemma retry_loop_absorbs (retry attempt_no : nat) (before : disk) :
  fails (src attempt_no) = true ->
  loop (S (S retry)) attempt_no before =
    after (attempt_trace pool config url destination (src attempt_no))
      (loop (S retry) (S attempt_no)
         (files (snd (run_attempt (src attempt_no) before)))).
Proof.
  intros Hfails. rewrite retry_loop_step.
  destruct (fails_outcome _ Hfails) as [e ->]. cbn [Nat.eqb negb].
  cbv zeta. now rewrite attempt_emitted_script.
Qed.

(** A source that fails [g] times from attempt [attempt_no] on and then
    succeeds, met with [remaining] iterations. *)
Lemma retry_loop_fails_then_succeeds (remaining : nat) :
  forall (g attempt_no : nat) (before : disk),
    (forall j, (j < g)%nat -> fails (src (attempt_no + j)) = true) ->
    succeeds (src (attempt_no + g)) = true ->
    let r := loop remaining attempt_no before in
    ((g < remaining)%nat ->
       settled r = Some (Resolved tt) /\
       network_contacts (trace r) = S g /\
       forall p, files_after r p
                 = if p =? destination then written_by (src (attempt_no + g)) else before p) /\
    ((1 <= remaining <= g)%nat ->
       (exists m, settled r = Some (Rejected m)) /\
       network_contacts (trace r) = remaining).
Proof.
  induction remaining as [| retry IH]; intros g attempt_no before Hfails Hsucceeds r.
  - split; intros; lia.
  - subst r. rewrite retry_loop_step. cbv zeta.
    destruct g as [| g].
    + rewrite Nat.add_0_r in Hsucceeds.
      rewrite (succeeds_outcome _ Hsucceeds). cbn [settled trace files_after].
      split; [intros _ | intros; lia].
      rewrite attempt_emitted_script, network_contacts_attempt.
      rewrite Nat.add_0_r.
      repeat split. intros p. apply attempt_files_script.
    + pose proof (Hfails 0%nat ltac:(lia)) as Hfirst. rewrite Nat.add_0_r in Hfirst.
      destruct (fails_outcome _ Hfirst) as [e ->].
      destruct retry as [| retry]; cbn [Nat.eqb negb].
      * cbn [settled trace]. split; [intros; lia | intros _].
        split; [eauto |].
        now rewrite attempt_emitted_script, network_contacts_attempt.
      * specialize (IH g (S attempt_no) (files (snd (run_attempt (src attempt_no) before)))).
        cbv zeta in IH.
        destruct IH as [IHwin IHlose].
        { intros j Hj. replace (S attempt_no + j)%nat with (attempt_no + S j)%nat by lia.
          apply Hfails. lia. }
        { now replace (S attempt_no + g)%nat with (attempt_no + S g)%nat by lia. }
        replace (S attempt_no + g)%nat with (attempt_no + S g)%nat in IHwin by lia.
        unfold after. cbn [settled trace files_after].
        rewrite network_contacts_app.
        rewrite attempt_emitted_script, network_contacts_attempt.
        split.
        -- intros Hg. destruct IHwin as (Hsettled & Hcontacts & Hfiles); [lia |].
           repeat split; [exact Hsettled | now rewrite Hcontacts |].
           intros p. rewrite Hfiles. rewrite attempt_files_script.
           destruct (p =? destination); reflexivity.
        -- intros Hg. destruct IHlose as (Hsettled & Hcontacts); [lia |].
           split; [exact Hsettled | now rewrite Hcontacts].
Qed.

(** A source that fails on every one of the [S last] iterations: the promise
    rejects with the error of the last attempt. *)
Lemma retry_loop_exhausted (last : nat) :
  forall (attempt_no : nat) (before : disk),
    (forall j, (j <= last)%nat -> fails (src (attempt_no + j)) = true) ->
    exists e,
      script_outcome (src (attempt_no + last)) = Failed e /\
      settled (loop (S last) attempt_no before)
        = Some (Rejected (if times_out (src (attempt_no + last))
                          then timeout_message config description
                          else failure_message description e)).
Proof.
  induction last as [| last IH]; intros attempt_no before Hfails;
    rewrite retry_loop_step; cbv zeta.
  - pose proof (Hfails 0%nat ltac:(lia)) as Hfirst.
    rewrite Nat.add_0_r in *.
    destruct (fails_outcome _ Hfirst) as [e He]. rewrite He.
    exists e. split; [reflexivity |]. cbn [Nat.eqb negb settled].
    unfold final_error. now rewrite attempt_aborted_script.
  - pose proof (Hfails 0%nat ltac:(lia)) as Hfirst. rewrite Nat.add_0_r in Hfirst.
    destruct (fails_outcome _ Hfirst) as [e0 ->]. cbn [Nat.eqb negb].
    destruct (IH (S attempt_no) (files (snd (run_attempt (src attempt_no) before))))
      as (e & He & Hsettled).
    { intros j Hj. replace (S attempt_no + j)%nat with (attempt_no + S j)%nat by lia.
      apply Hfails. lia. }
    replace (S attempt_no + last)%nat with (attempt_no + S last)%nat in * by lia.
    exists e. split; [exact He |]. exact Hsettled.
Qed.

(** The actions of a run neither make nor destroy an agent, and every
    request goes through the agents of the pool. *)
Lemma retry_loop_keeps_pool (remaining : nat) :
  forall (attempt_no : nat) (before : disk),
    Forall (keeps_pool pool) (trace (loop remaining attempt_no before)).
Proof.
  induction remaining as [| retry IH]; intros attempt_no before.
  - constructor.
  - rewrite retry_loop_step. cbv zeta.
    pose proof (attempt_trace_keeps_pool pool config url destination (src attempt_no))
      as Hattempt.
    rewrite <- (attempt_emitted_script pool config url destination (src attempt_no) before)
      in Hattempt.
    destruct (script_outcome (src attempt_no)) as [| e |]; try exact Hattempt.
    destruct (negb (retry =? 0)%nat); [| exact Hattempt].
    cbn [after trace]. apply Forall_app. split; [exact Hattempt | apply IH].
Qed.

(** Whenever the promise rejects, the message is one of the two the [catch]
    block can build. *)
Lemma retry_loop_messages (remaining : nat) :
  forall (attempt_no : nat) (before : disk) (message : string),
    settled (loop remaining attempt_no before) = Some (Rejected message) ->
    message = timeout_message config description \/
    exists e, message = failure_message description e.
Proof.
  induction remaining as [| retry IH]; intros attempt_no before message;
    [discriminate |].
  rewrite retry_loop_step. cbv zeta.
  destruct (script_outcome (src attempt_no)) as [| e |]; try discriminate.
  destruct (negb (retry =? 0)%nat).
  - cbn [after settled]. apply IH.
  - cbn [settled]. intros [= <-]. unfold final_error.
    destruct (aborted _); [now left | right; now exists e].
Qed.

End RetryProperties.

(** ** [download] *)

(** X15.  When each of the first [f] attempts ends with an error that the
    code sees (the request is rejected, or the writer emits ["error"]) and
    the next attempt succeeds, and [downloadRetry] is at least 1:
    [download] resolves exactly when [f < downloadRetry], rejects exactly
    when [downloadRetry <= f], and contacts the network
    [min (f + 1) downloadRetry] times; a success ends the loop at once,
    whatever is left of the retries. *)
Theorem download_bounded_retry (config : Config) (url destination description : string)
  (src : source) (f : nat) (before : disk) :
  (1 <= downloadRetry config)%Z ->
  (forall i, (i < f)%nat -> fails (src i) = true) ->
  succeeds (src f) = true ->
  let r := download config url destination description src before in
  (settled r = Some (Resolved tt) <-> (Z.of_nat f < downloadRetry config)%Z) /\
  ((exists message, settled r = Some (Rejected message))
     <-> (downloadRetry config <= Z.of_nat f)%Z) /\
  Z.of_nat (network_contacts (trace r)) = Z.min (Z.of_nat f + 1) (downloadRetry config).
Proof.
  intros Hretry Hfails Hsucceeds r.
  pose proof (retry_loop_fails_then_succeeds (fst module_init) config url destination
                description src (Z.to_nat (downloadRetry config)) f 0 before Hfails Hsucceeds)
    as [Hwin Hlose].
  fold (download_call (fst module_init) config url destination description src before)
    in Hwin, Hlose.
  fold (download config url destination description src before) in Hwin, Hlose.
  fold r in Hwin, Hlose.
  destruct (Z.lt_ge_cases (Z.of_nat f) (downloadRetry config)) as [Hlt | Hge].
  - destruct Hwin as (Hsettled & Hcontacts & _); [lia |].
    split; [| split].
    + split; intros _; assumption.
    + split; [intros [message Hrejected]; congruence | lia].
    + lia.
  - destruct Hlose as ([message Hrejected] & Hcontacts); [lia |].
    split; [| split].
    + split; [intros Hsettled; congruence | lia].
    + split; [intros _; assumption | intros _; now exists message].
    + lia.
Qed.

Lemma download_bounded_retry_witness :
  (1 <= downloadRetry three_tries)%Z /\
  (forall i, (i < 2)%nat -> fails (two_failures_then_body i) = true) /\
  succeeds (two_failures_then_body 2) = true /\
  network_contacts
    (trace (download three_tries "http://oj/data.zip" "/judge/data.zip" "test data"
              two_failures_then_body stale_disk)) = 3%nat.
Proof.
  assert (H1 : (1 <= downloadRetry three_tries)%Z) by (cbn; lia).
  assert (H2 : forall i, (i < 2)%nat -> fails (two_failures_then_body i) = true).
  { intros [| [| i]] Hi; [reflexivity | reflexivity | lia]. }
  assert (H3 : succeeds (two_failures_then_body 2) = true) by reflexivity.
  split; [exact H1 | split; [exact H2 | split; [exact H3 |]]].
  destruct (download_bounded_retry three_tries "http://oj/data.zip" "/judge/data.zip"
              "test data" two_failures_then_body 2 stale_disk H1 H2 H3)
    as (_ & _ & Hcontacts).
  apply Nat2Z.inj. etransitivity; [exact Hcontacts | reflexivity].
Defined.

(** C6.  Every attempt creates the write stream on the destination, which
    truncates the file, before it issues the request, so that the attempt
    leaves in the destination the bytes it wrote itself and nothing else.
    Hence, when the source fails on its first [f] attempts, whatever they
    wrote, and then succeeds within the retries, the destination holds
    exactly the body written by the succeeding attempt. *)
Theorem download_overwrites_on_retry (config : Config) (url destination description : string)
  (src : source) (f : nat) (before : disk) :
  (forall i, (i < f)%nat -> fails (src i) = true) ->
  succeeds (src f) = true ->
  (Z.of_nat f < downloadRetry config)%Z ->
  let r := download config url destination description src before in
  settled r = Some (Resolved tt) /\
  files_after r destination = written_by (src f) /\
  forall behaviour files0,
    let st := snd (attempt (fst module_init) config url destination behaviour files0) in
    (exists later,
       emitted st
         = CreateWriteStream destination
             :: Request url (httpAgent (fst module_init)) (httpsAgent (fst module_init))
             :: later) /\
    files st destination = written_by behaviour.
Proof.
  intros Hfails Hsucceeds Hretry r.
  pose proof (retry_loop_fails_then_succeeds (fst module_init) config url destination
                description src (Z.to_nat (downloadRetry config)) f 0 before Hfails Hsucceeds)
    as [Hwin _].
  destruct Hwin as (Hsettled & _ & Hfiles); [lia |].
  split; [exact Hsettled | split].
  - subst r. unfold download, download_call. rewrite Hfiles.
    now rewrite String.eqb_refl.
  - intros behaviour files0 st. subst st. split.
    + rewrite attempt_emitted_script. unfold attempt_trace. cbn [app]. eauto.
    + rewrite attempt_files_script. now rewrite String.eqb_refl.
Qed.

Lemma download_overwrites_on_retry_witness :
  (forall i, (i < 2)%nat -> fails (two_failures_then_body i) = true) /\
  succeeds (two_failures_then_body 2) = true /\
  (Z.of_nat 2 < downloadRetry three_tries)%Z /\
  files_after (download three_tries "http://oj/data.zip" "/judge/data.zip" "test data"
                 two_failures_then_body stale_disk) "/judge/data.zip" = hello.
Proof.
  assert (H1 : forall i, (i < 2)%nat -> fails (two_failures_then_body i) = true).
  { intros [| [| i]] Hi; [reflexivity | reflexivity | lia]. }
  assert (H2 : succeeds (two_failures_then_body 2) = true) by reflexivity.
  assert (H3 : (Z.of_nat 2 < downloadRetry three_tries)%Z) by (cbn; lia).
  split; [exact H1 | split; [exact H2 | split; [exact H3 |]]].
  destruct (download_overwrites_on_retry three_tries "http://oj/data.zip" "/judge/data.zip"
              "test data" two_failures_then_body 2 stale_disk H1 H2 H3)
    as (_ & Hfiles & _).
  rewrite Hfiles. reflexivity.
Defined.

(** C1.  A source that fails by timing out is not retried.  For the source
    that times out on the first two attempts and answers ["hello"] on the
    third, and for the source that leaves the first request unanswered and
    answers every later one, whatever [downloadRetry >= 1] and the timeout
    are: [download] never settles, contacts the network once, and leaves the
    destination empty; it does not resolve with the body after
    [min (f + 1) downloadRetry] requests. *)
Theorem timeouts_then_success_stays_pending (retries : positive) (timeout : Z)
  (url destination description : string) (before : disk) :
  let config := {| downloadRetry := Z.pos retries; downloadTimeout := timeout |} in
  let stalled := download config url destination description timeouts_then_hello before in
  let unanswered := download config url destination description unanswered_then_hello before in
  succeeds (timeouts_then_hello 2) = true /\
  settled stalled = None /\
  network_contacts (trace stalled) = 1%nat /\
  files_after stalled destination = [] /\
  succeeds (unanswered_then_hello 1) = true /\
  settled unanswered = None /\
  network_contacts (trace unanswered) = 1%nat /\
  files_after unanswered destination = [].
Proof.
  cbv zeta. unfold download, download_call.
  cbn [downloadRetry]. rewrite Z2Nat.inj_pos.
  destruct (Pos2Nat.is_succ retries) as [n ->].
  cbn. unfold store. rewrite String.eqb_refl.
  repeat split.
Qed.

(** C2.  A timer that fires does not end the attempt.  When the response has
    arrived and the body stalls until the deadline has passed, the timer
    fires and [abort()] is called, yet the awaited promise stays pending:
    only an event of the writer settles it, the attempt is no timed-out
    failure, [clearTimeout] is not called and the writer is left open.  When
    the writer reports ["finish"] after the deadline has passed, the attempt
    succeeds although its timer fired. *)
Theorem fired_timer_does_not_end_attempt (config : Config) (url destination : string)
  (bytes : list Byte.byte) (before : disk) :
  let stalled := attempt (fst module_init) config url destination (stalls bytes) before in
  let late :=
    attempt (fst module_init) config url destination
      (Response [Chunk bytes; Deadline; Finish]) before in
  fst stalled = Pending /\
  aborted (snd stalled) = true /\
  timer (snd stalled) = Fired /\
  timer_actions (emitted (snd stalled)) = [SetTimeout (downloadTimeout config); TimerFires] /\
  writer (snd stalled) = WriterOpen /\
  fst late = Succeeded /\
  aborted (snd late) = true /\
  timer_actions (emitted (snd late))
    = [SetTimeout (downloadTimeout config); TimerFires; ClearTimeout].
Proof. cbv zeta. repeat split. Qed.

(** C5.  An attempt that times out, or that loses the connection in the
    middle of the body, is not absorbed by a retry: whatever the later
    attempts would do and however many retries are left, [download] stays
    pending, and its actions are those of the first attempt alone: no
    second write stream, no second request. *)
Theorem timed_out_attempt_is_not_retried (retries : positive) (timeout : Z)
  (url destination description : string) (bytes : list Byte.byte)
  (later : source) (before : disk) :
  let config := {| downloadRetry := Z.pos retries; downloadTimeout := timeout |} in
  let timed_out :=
    download config url destination description (preceded_by (stalls bytes) later) before in
  let lost :=
    download config url destination description (preceded_by (cut_off bytes) later) before in
  settled timed_out = None /\
  trace timed_out
    = [CreateWriteStream destination;
       Request url (httpAgent (fst module_init)) (httpsAgent (fst module_init));
       SetTimeout timeout; Write destination bytes; TimerFires] /\
  settled lost = None /\
  trace lost
    = [CreateWriteStream destination;
       Request url (httpAgent (fst module_init)) (httpsAgent (fst module_init));
       SetTimeout timeout; Write destination bytes].
Proof.
  cbv zeta. unfold download, download_call.
  cbn [downloadRetry]. rewrite Z2Nat.inj_pos.
  destruct (Pos2Nat.is_succ retries) as [n ->].
  repeat split.
Qed.





(** C3.  Against a source that never answers, [download] never settles: the
    first attempt awaits the request for ever, no timer is ever armed, and no
    error, about a timeout or otherwise, reaches the caller. *)
Theorem download_unanswered_never_settles (retries : positive) (timeout : Z)
  (url destination description : string) (before : disk) :
  let config := {| downloadRetry := Z.pos retries; downloadTimeout := timeout |} in
  let r := download config url destination description silent before in
  settled r = None /\
  timer_actions (trace r) = [] /\
  network_contacts (trace r) = 1%nat.
Proof.
  intros config r. subst r config. unfold download, download_call.
  cbn [downloadRetry]. rewrite Z2Nat.inj_pos.
  destruct (Pos2Nat.is_succ retries) as [n ->].
  repeat split.
Qed.

(** C4.  When the destination cannot be written on the last attempt, the
    error of [download] does not carry the cause reported by the writer: the
    listener calls [reject] without it, and the message ends in
    ["undefined"] whatever the cause was. *)
Theorem write_error_cause_is_lost (retries : positive) (timeout : Z)
  (url destination description cause : string) (before : disk) :
  let config := {| downloadRetry := Z.pos retries; downloadTimeout := timeout |} in
  settled (download config url destination description (unwritable cause) before)
    = Some (Rejected ("Failed to download " ++ description ++ ": undefined")).
Proof.
  intros config. subst config. unfold download, download_call.
  cbn [downloadRetry]. rewrite Z2Nat.inj_pos.
  destruct (Pos2Nat.is_succ retries) as [n ->].
  destruct (retry_loop_exhausted (fst module_init)
              {| downloadRetry := Z.pos retries; downloadTimeout := timeout |}
              url destination description (unwritable cause) n 0 before)
    as (e & He & Hsettled); [reflexivity |].
  rewrite Hsettled. cbn in He. injection He as <-. reflexivity.
Qed.

(** ** The connection pool *)

Lemma run_calls_keeps_pool (calls : list call) :
  forall before, Forall (keeps_pool (fst module_init)) (run_calls calls before).
Proof.
  induction calls as [| c later IH]; intros before; cbn [run_calls].
  - constructor.
  - apply Forall_app. split; [apply retry_loop_keeps_pool | apply IH].
Qed.

(** C8.  In a process that loads the module and then makes any calls of
    [download]: the two agents are made once, as the first two actions, and
    no agent is made or destroyed afterwards; every request of every attempt
    of every call goes through these two agents; and both are configured
    with a timeout of 3 600 000 ms, one hour. *)
Theorem pool_created_once_and_shared (calls : list call) (before : disk) :
  let pool := fst module_init in
  let t := process calls before in
  agent_actions t = [NewAgent (httpAgent pool); NewAgent (httpsAgent pool)] /\
  firstn 2 t = [NewAgent (httpAgent pool); NewAgent (httpsAgent pool)] /\
  Forall (uses_pool pool) t /\
  agent_timeout (httpAgent pool) = 3600000%Z /\
  agent_timeout (httpsAgent pool) = 3600000%Z.
Proof.
  intros pool t. subst t. unfold process.
  pose proof (run_calls_keeps_pool calls before) as Hkept. fold pool in Hkept.
  split; [| split; [| split; [| split]]]; try reflexivity.
  - unfold agent_actions. rewrite filter_app.
    fold (agent_actions (run_calls calls before)).
    rewrite (keeps_pool_no_agent_action pool (run_calls calls before) Hkept). reflexivity.
  - apply Forall_app. split; [repeat constructor |].
    eapply Forall_impl; [| exact Hkept]. now intros a [_ Ha].
Qed.

(** ** [merge] *)

Section MergeProperties.

Variable K : Type.
Variable K_eq_dec : forall a b : K, {a = b} + {a <> b}.
Variable V : Type.
Variable env : Merge.host K V.

Local Abbreviation find := (Merge.find K_eq_dec (V := V)).
Local Abbreviation put := (Merge.put K_eq_dec (V := V)).
Local Abbreviation own_entry := (Merge.own_entry K_eq_dec (V := V)).
Local Abbreviation get := (Merge.get K_eq_dec (V := V)).
Local Abbreviation set := (Merge.set K_eq_dec env).
Local Abbreviation spread := (Merge.spread env).
Local Abbreviation merge := (Merge.merge K_eq_dec env).
Local Abbreviation override_key := (Merge.override_key K_eq_dec env).
Local Abbreviation keys := (Merge.ownKeys (K := K) (V := V)).

Lemma find_put_same (props : list (K * Merge.property V)) (k : K) (e : Merge.entry V) :
  option_map Merge.held (find (put props k e) k) = Some e.
Proof.
  induction props as [| [k0 p0] rest IH]; cbn.
  - destruct (K_eq_dec k k); [reflexivity | congruence].
  - destruct (K_eq_dec k0 k) as [-> | Hne]; cbn.
    + destruct (K_eq_dec k k); [reflexivity | congruence].
    + destruct (K_eq_dec k0 k); [congruence | exact IH].
Qed.

Lemma find_put_other (props : list (K * Merge.property V)) (k k' : K) (e : Merge.entry V) :
  k <> k' -> find (put props k e) k' = find props k'.
Proof.
  intros Hne. induction props as [| [k0 p0] rest IH]; cbn.
  - destruct (K_eq_dec k k'); congruence.
  - destruct (K_eq_dec k0 k) as [-> | Hne0]; cbn.
    + destruct (K_eq_dec k k'); congruence.
    + destruct (K_eq_dec k0 k'); [reflexivity | exact IH].
Qed.

Lemma find_None_iff (props : list (K * Merge.property V)) (k : K) :
  find props k = None <-> ~ In k (map fst props).
Proof.
  induction props as [| [k0 p0] rest IH]; cbn.
  - tauto.
  - destruct (K_eq_dec k0 k) as [-> | Hne].
    + split; [discriminate | tauto].
    + rewrite IH. tauto.
Qed.

Lemma keys_put (props : list (K * Merge.property V)) (k : K) (e : Merge.entry V) :
  map fst (put props k e)
    = if in_dec K_eq_dec k (map fst props) then map fst props
      else (map fst props ++ [k])%list.
Proof.
  induction props as [| [k0 p0] rest IH]; cbn [Merge.put map fst app].
  - destruct (in_dec K_eq_dec k []) as [[] | _]. reflexivity.
  - destruct (K_eq_dec k0 k) as [-> | Hne]; cbn [map fst].
    + destruct (in_dec K_eq_dec k (k :: map fst rest)) as [_ | Hout]; [reflexivity |].
      exfalso. apply Hout. now left.
    + rewrite IH.
      destruct (in_dec K_eq_dec k (map fst rest)) as [Hin | Hout];
        destruct (in_dec K_eq_dec k (k0 :: map fst rest)) as [Hin' | Hout'];
        try reflexivity.
      * exfalso. apply Hout'. now right.
      * destruct Hin' as [-> | Hin']; contradiction.
Qed.

Lemma put_enumerable (props : list (K * Merge.property V)) (k : K) (e : Merge.entry V) :
  Forall (fun kp => Merge.enumerable (snd kp) = true) props ->
  Forall (fun kp => Merge.enumerable (snd kp) = true) (put props k e).
Proof.
  induction 1 as [| [k0 p0] rest Hp Hrest IH]; cbn.
  - now repeat constructor.
  - destruct (K_eq_dec k0 k); constructor; assumption.
Qed.

(** An assignment that does not go through a setter overwrites or makes the
    own property and leaves what the object inherits. *)
Lemma set_plain (o : Merge.object K V) (k : K) (e : Merge.entry V) :
  Merge.through_setter env k = false ->
  set o k e = {| Merge.own := put (Merge.own o) k e; Merge.inherits := Merge.inherits o |}.
Proof.
  intros Hplain. unfold Merge.set. rewrite Hplain.
  now destruct (find (Merge.own o) k).
Qed.

Lemma get_set_same (o : Merge.object K V) (k : K) (e : Merge.entry V) :
  Merge.through_setter env k = false -> get (set o k e) k = Some e.
Proof.
  intros Hplain. rewrite set_plain by exact Hplain. unfold Merge.get. cbn [Merge.own].
  pose proof (find_put_same (Merge.own o) k e) as Hfound.
  destruct (find (put (Merge.own o) k e) k); [exact Hfound | discriminate].
Qed.

Lemma get_set_other (o : Merge.object K V) (k k' : K) (e : Merge.entry V) :
  Merge.through_setter env k = false -> k <> k' -> get (set o k e) k' = get o k'.
Proof.
  intros Hplain Hne. rewrite set_plain by exact Hplain. unfold Merge.get.
  cbn [Merge.own Merge.inherits]. now rewrite find_put_other.
Qed.

Lemma own_entry_None_iff (o : Merge.object K V) (k : K) :
  own_entry o k = None <-> ~ In k (keys o).
Proof.
  unfold Merge.own_entry, Merge.ownKeys. rewrite <- find_None_iff.
  destruct (find (Merge.own o) k); cbn; split; congruence.
Qed.

(** Under one of its own keys an object holds its own property. *)
Lemma get_own (o : Merge.object K V) (k : K) :
  In k (keys o) -> get o k = own_entry o k /\ get o k <> None.
Proof.
  intros Hin. unfold Merge.get, Merge.own_entry.
  destruct (find (Merge.own o) k) as [p |] eqn:Hfound; cbn; [split; congruence |].
  apply find_None_iff in Hfound. contradiction.
Qed.

Lemma override_key_get (o result : Merge.object K V) (key k : K) :
  Merge.through_setter env key = false ->
  get (override_key o result key) k =
    if K_eq_dec key k then merged_entry (get result k) (get o k) else get result k.
Proof.
  intros Hplain. unfold Merge.override_key.
  destruct (K_eq_dec key k) as [-> | Hne].
  - destruct (get o k) as [[v | g] |]; cbn [merged_entry].
    + now apply get_set_same.
    + destruct (get result k) as [[v | f] |]; now apply get_set_same.
    + reflexivity.
  - destruct (get o key) as [[v | g] |].
    + now apply get_set_other.
    + destruct (get result key) as [[v | f] |]; now apply get_set_other.
    + reflexivity.
Qed.

Lemma fold_override_get (o : Merge.object K V) (k : K) (l : list K) :
  NoDup l ->
  (forall key, In key l -> Merge.through_setter env key = false) ->
  forall result,
    get (fold_left (override_key o) l result) k =
      if in_dec K_eq_dec k l then merged_entry (get result k) (get o k)
      else get result k.
Proof.
  induction 1 as [| key rest Hfresh Hrest IH]; intros Hplain result; cbn [fold_left].
  - reflexivity.
  - rewrite IH by (intros key' Hkey'; apply Hplain; now right).
    rewrite override_key_get by (apply Hplain; now left).
    destruct (K_eq_dec key k) as [-> | Hne].
    + destruct (in_dec K_eq_dec k rest); [contradiction |].
      destruct (in_dec K_eq_dec k (k :: rest)) as [_ | Hout]; [reflexivity |].
      exfalso. apply Hout. now left.
    + destruct (in_dec K_eq_dec k rest) as [Hin | Hout];
        destruct (in_dec K_eq_dec k (key :: rest)) as [Hin' | Hout'];
        try reflexivity.
      * exfalso. apply Hout'. now right.
      * destruct Hin' as [-> | Hin']; contradiction.
Qed.

Lemma merge_lookup (base override : Merge.object K V) (k : K) :
  NoDup (keys override) ->
  (forall key, In key (keys override) -> Merge.through_setter env key = false) ->
  get (merge base (Some override)) k
    = merged_entry (get (spread base) k) (own_entry override k).
Proof.
  intros Hdistinct Hplain. unfold Merge.merge.
  rewrite fold_override_get by assumption.
  destruct (in_dec K_eq_dec k (keys override)) as [Hin | Hout].
  - now destruct (get_own override k Hin) as [-> _].
  - apply own_entry_None_iff in Hout. now rewrite Hout.
Qed.

(** X1.  For an override whose keys are distinct and none of which is
    assigned through an inherited setter, what a lookup finds in the merged
    record under any key is made from what a lookup finds under that key in
    the copy of the base (its own enumerable property, or else what every
    object literal inherits) and from the own property of the override:
    without a property in the override the first stays; a plain value of
    the override replaces it; a reducer of the override is composed after a
    function found in the copy of the base, inherited ones included, and
    replaces a plain value or a missing entry without being applied to
    it. *)
Theorem merge_get (base override : Merge.object K V) (k : K) :
  NoDup (keys override) ->
  (forall key, In key (keys override) -> Merge.through_setter env key = false) ->
  get (merge base (Some override)) k
    = merged_entry (get (spread base) k) (own_entry override k).
Proof.
  intros Hdistinct Hplain. unfold Merge.merge.
  rewrite fold_override_get by assumption.
  destruct (in_dec K_eq_dec k (keys override)) as [Hin | Hout].
  - now destruct (get_own override k Hin) as [-> _].
  - apply own_entry_None_iff in Hout. now rewrite Hout.
Qed.

(** What the loop keeps: the own properties are enumerable, and what the
    result inherits is what every object literal inherits. *)
Lemma fold_override_literal (o : Merge.object K V) (l : list K) :
  (forall key, In key l -> Merge.through_setter env key = false) ->
  forall result,
    Forall (fun kp => Merge.enumerable (snd kp) = true) (Merge.own result) ->
    let final := fold_left (override_key o) l result in
    Forall (fun kp => Merge.enumerable (snd kp) = true) (Merge.own final) /\
    Merge.inherits final = Merge.inherits result.
Proof.
  induction l as [| key rest IH]; intros Hplain result Hresult; cbn [fold_left];
    [now split |].
  assert (Hkey : Merge.through_setter env key = false) by (apply Hplain; now left).
  assert (Hstep : Forall (fun kp => Merge.enumerable (snd kp) = true)
                    (Merge.own (override_key o result key)) /\
                  Merge.inherits (override_key o result key) = Merge.inherits result).
  { unfold Merge.override_key.
    destruct (get o key) as [[v | g] |]; [| | now split].
    - rewrite set_plain by exact Hkey. cbn. split; [now apply put_enumerable | reflexivity].
    - destruct (get result key) as [[v | f] |]; rewrite set_plain by exact Hkey; cbn;
        (split; [now apply put_enumerable | reflexivity]). }
  destruct Hstep as [Hown Hinherits].
  destruct (IH (fun key' Hkey' => Hplain key' (or_intror Hkey'))
              (override_key o result key) Hown) as [Hfinal Hsame].
  split; [exact Hfinal | congruence].
Qed.

Lemma spread_enumerable (o : Merge.object K V) :
  Forall (fun kp => Merge.enumerable (snd kp) = true) (Merge.own (spread o)).
Proof.
  unfold Merge.spread. cbn [Merge.own]. apply Forall_forall.
  intros kp Hin. now apply filter_In in Hin as [_ Hin].
Qed.

(** The merged record is an object literal whose own properties are all
    enumerable: copying it again changes nothing. *)
Lemma spread_merge (base override : Merge.object K V) :
  (forall key, In key (keys override) -> Merge.through_setter env key = false) ->
  spread (merge base (Some override)) = merge base (Some override).
Proof.
  intros Hplain. unfold Merge.merge.
  destruct (fold_override_literal override (keys override) Hplain (spread base)
              (spread_enumerable base)) as [Hown Hinherits].
  cbv zeta in *.
  destruct (fold_left (override_key override) (keys override) (spread base))
    as [props inherited].
  cbn [Merge.own Merge.inherits] in *. unfold Merge.spread. cbn [Merge.own].
  f_equal; [| now rewrite Hinherits].
  induction Hown as [| kp rest Hkp Hrest IH]; cbn [filter]; [reflexivity |].
  now rewrite Hkp, IH.
Qed.

Lemma fold_override_keys (o : Merge.object K V) (l : list K) :
  NoDup l ->
  (forall k, In k l -> get o k <> None) ->
  (forall k, In k l -> Merge.through_setter env k = false) ->
  forall result,
    keys (fold_left (override_key o) l result) =
      (keys result
         ++ filter (fun k => if in_dec K_eq_dec k (keys result) then false else true) l)%list.
Proof.
  induction 1 as [| key rest Hfresh Hrest IH]; intros Hown Hplain result;
    cbn [fold_left filter].
  - now rewrite app_nil_r.
  - rewrite IH by (intros k Hk; (apply Hown || apply Hplain); now right).
    assert (Hkeys : keys (override_key o result key)
                    = if in_dec K_eq_dec key (keys result)
                      then keys result else (keys result ++ [key])%list).
    { unfold Merge.override_key, Merge.ownKeys.
      pose proof (Hown key (or_introl eq_refl)) as Hkey.
      pose proof (Hplain key (or_introl eq_refl)) as Hsetter.
      destruct (get o key) as [[v | g] |]; [| | congruence].
      - rewrite set_plain by exact Hsetter. apply keys_put.
      - destruct (get result key) as [[v | f] |]; rewrite set_plain by exact Hsetter;
          apply keys_put. }
    rewrite Hkeys.
    destruct (in_dec K_eq_dec key (keys result)) as [Hin | Hout]; [reflexivity |].
    rewrite <- app_assoc. cbn [app]. do 2 f_equal.
    apply filter_ext_in. intros k Hk.
    destruct (in_dec K_eq_dec k (keys result)) as [Hin1 | Hout1];
      destruct (in_dec K_eq_dec k (keys result ++ [key])) as [Hin2 | Hout2];
      try reflexivity.
    + exfalso. apply Hout2. apply in_or_app. now left.
    + apply in_app_or in Hin2. destruct Hin2 as [Hin2 | [-> | []]]; contradiction.
Qed.

Lemma merge_key_order (base override : Merge.object K V) :
  NoDup (keys override) ->
  (forall key, In key (keys override) -> Merge.through_setter env key = false) ->
  keys (merge base (Some override)) =
    (keys (spread base)
       ++ filter (fun k => if in_dec K_eq_dec k (keys (spread base)) then false else true)
            (keys override))%list.
Proof.
  intros Hdistinct Hplain. unfold Merge.merge.
  apply fold_override_keys; try assumption.
  intros k Hk. now apply get_own.
Qed.

Lemma keys_spread_distinct (o : Merge.object K V) :
  NoDup (keys o) -> NoDup (keys (spread o)).
Proof.
  unfold Merge.ownKeys, Merge.spread. cbn [Merge.own].
  induction (Merge.own o) as [| [k p] rest IH]; cbn [map filter fst snd]; intros Hdistinct;
    [constructor |].
  inversion Hdistinct as [| ? ? Hfresh Hrest]; subst.
  destruct (Merge.enumerable p); cbn [map fst]; [| now apply IH].
  constructor; [| now apply IH].
  intros Hin. apply Hfresh. apply in_map_iff in Hin as ([k' p'] & Hk & Hin).
  apply filter_In in Hin as [Hin _]. cbn in Hk. subst k'.
  apply in_map_iff. now exists (k, p').
Qed.

Lemma merge_keeps_distinct (base override : Merge.object K V) :
  NoDup (keys base) -> NoDup (keys override) ->
  (forall key, In key (keys override) -> Merge.through_setter env key = false) ->
  NoDup (keys (merge base (Some override))).
Proof.
  intros Hbase Hoverride Hplain. rewrite merge_key_order by assumption.
  apply NoDup_app; [now apply keys_spread_distinct | now apply NoDup_filter |].
  intros k Hin Hfiltered. apply filter_In in Hfiltered as [_ Hout].
  destruct (in_dec K_eq_dec k (keys (spread base))); [discriminate | contradiction].
Qed.

(** X2.  For an override whose keys are distinct and none of which is
    assigned through an inherited setter, the merged record has an own
    property under a key exactly when the base has an own enumerable
    property under it or the override has an own property under it; and the
    keys of the merged record are distinct when those of the base are. *)
Theorem merge_ownKeys (base override : Merge.object K V) (k : K) :
  NoDup (keys override) ->
  (forall key, In key (keys override) -> Merge.through_setter env key = false) ->
  (In k (keys (merge base (Some override)))
     <-> In k (keys (spread base)) \/ In k (keys override)) /\
  (NoDup (keys base) -> NoDup (keys (merge base (Some override)))).
Proof.
  intros Hdistinct Hplain. split.
  - rewrite merge_key_order by assumption. rewrite in_app_iff, filter_In.
    destruct (in_dec K_eq_dec k (keys (spread base))) as [Hin | Hout]; intuition congruence.
  - intros Hbase. now apply merge_keeps_distinct.
Qed.

Lemma find_filter_enumerable (props : list (K * Merge.property V)) (k : K) :
  (forall p, find props k = Some p -> Merge.enumerable p = true) ->
  find (filter (fun kp => Merge.enumerable (snd kp)) props) k = find props k.
Proof.
  induction props as [| [k0 p0] rest IH]; cbn [filter Merge.find snd]; intros Hshown;
    [reflexivity |].
  destruct (K_eq_dec k0 k) as [-> | Hne].
  - rewrite (Hshown p0 eq_refl). cbn [Merge.find].
    now destruct (K_eq_dec k k).
  - destruct (Merge.enumerable p0); cbn [Merge.find];
      [destruct (K_eq_dec k0 k); [congruence |] |]; now apply IH.
Qed.

(** X3.  Take three records, the second and third with distinct keys none
    of which is assigned through an inherited setter, and a key under which
    object literals inherit nothing and under which the second record has
    no property hidden from enumeration.  Then merging in two steps and
    merging with the merged overrides leave the same entry under that key,
    unless the first record holds a reducer there, the second a plain value
    and the third a reducer: then the two-step merge forgets the first
    reducer, while the other composes the third reducer after it. *)
Theorem merge_merge (first second third : Merge.object K V) (k : K) :
  NoDup (keys second) ->
  NoDup (keys third) ->
  (forall key, In key (keys second) -> Merge.through_setter env key = false) ->
  (forall key, In key (keys third) -> Merge.through_setter env key = false) ->
  Merge.object_prototype env k = None ->
  (forall p, find (Merge.own second) k = Some p -> Merge.enumerable p = true) ->
  is_reducer (get (spread first) k) && is_value (own_entry second k)
    && is_reducer (own_entry third k) = false ->
  get (merge (merge first (Some second)) (Some third)) k
    = get (merge first (Some (merge second (Some third)))) k.
Proof.
  intros Hsecond Hthird Hplain2 Hplain3 Hnothing Hshown Hcase.
  set (inner := merge second (Some third)).
  assert (Hinner_keys : forall key, In key (keys inner) ->
                                    Merge.through_setter env key = false).
  { intros key Hkey. unfold inner in Hkey.
    rewrite merge_key_order in Hkey by assumption.
    apply in_app_or in Hkey as [Hkey | Hkey].
    - apply Hplain2. unfold Merge.ownKeys, Merge.spread in *. cbn [Merge.own] in Hkey.
      apply in_map_iff in Hkey as (kp & <- & Hkp). apply filter_In in Hkp as [Hkp _].
      now apply in_map.
    - apply filter_In in Hkey as [Hkey _]. now apply Hplain3. }
  assert (Hinner_distinct : NoDup (keys inner)).
  { unfold inner. rewrite merge_key_order by assumption.
    apply NoDup_app; [now apply keys_spread_distinct | now apply NoDup_filter |].
    intros key Hin Hfiltered. apply filter_In in Hfiltered as [_ Hout].
    destruct (in_dec K_eq_dec key (keys (spread second))); [discriminate | contradiction]. }
  rewrite (merge_lookup (merge first (Some second)) third k) by assumption.
  rewrite spread_merge by assumption.
  rewrite (merge_lookup first second k) by assumption.
  rewrite (merge_lookup first inner k) by assumption.
  assert (Hinner_entry : own_entry inner k
                         = merged_entry (own_entry second k) (own_entry third k)).
  { pose proof (merge_lookup second third k Hthird Hplain3) as Hget. fold inner in Hget.
    assert (Hinherits : Merge.inherits inner = Merge.object_prototype env).
    { unfold inner, Merge.merge.
      now destruct (fold_override_literal third (keys third) Hplain3 (spread second)
                      (spread_enumerable second)) as [_ ->]. }
    assert (Hown : own_entry inner k = get inner k).
    { unfold Merge.own_entry, Merge.get. rewrite Hinherits, Hnothing.
      now destruct (find (Merge.own inner) k). }
    assert (Hcopy : get (spread second) k = own_entry second k).
    { unfold Merge.own_entry, Merge.get, Merge.spread. cbn [Merge.own Merge.inherits].
      rewrite find_filter_enumerable by exact Hshown. rewrite Hnothing.
      now destruct (find (Merge.own second) k). }
    now rewrite Hown, Hget, Hcopy. }
  rewrite Hinner_entry.
  destruct (get (spread first) k) as [[v1 | f1] |], (own_entry second k) as [[v2 | f2] |],
    (own_entry third k) as [[v3 | f3] |]; cbn in *; try reflexivity; discriminate.
Qed.

End MergeProperties.

Lemma sample_keys_plain (entries : list (string * Merge.entry nat)) :
  ~ In "__proto__" (map fst entries) ->
  forall key, In key (Merge.ownKeys (literal entries)) ->
              Merge.through_setter sample_host key = false.
Proof.
  intros Hnone key Hkey. unfold Merge.ownKeys, literal in Hkey. cbn [Merge.own] in Hkey.
  rewrite map_map in Hkey. cbn [fst] in Hkey.
  cbn [Merge.through_setter sample_host].
  destruct (String.eqb_spec "__proto__" key) as [<- | _]; [contradiction | reflexivity].
Qed.

Lemma limits_language_distinct : NoDup (Merge.ownKeys limits_language).
Proof. cbn. repeat constructor; cbn; intuition discriminate. Qed.

Lemma limits_task_distinct : NoDup (Merge.ownKeys limits_task).
Proof. cbn. repeat constructor; cbn; intuition discriminate. Qed.

Lemma limits_language_plain :
  forall key, In key (Merge.ownKeys limits_language) ->
              Merge.through_setter sample_host key = false.
Proof. apply sample_keys_plain. cbn. intuition discriminate. Qed.

Lemma limits_task_plain :
  forall key, In key (Merge.ownKeys limits_task) ->
              Merge.through_setter sample_host key = false.
Proof. apply sample_keys_plain. cbn. intuition discriminate. Qed.

(** The reducer of the base is composed with the reducer of the override
    under ["memory"], and the inherited [toString] with the reducer the
    override holds under ["toString"]. *)
Lemma merge_get_witness :
  NoDup (Merge.ownKeys limits_language) /\
  (forall key, In key (Merge.ownKeys limits_language) ->
               Merge.through_setter sample_host key = false) /\
  option_map (fun e => match e with Merge.Reducer f => f 100%nat | Merge.Value v => v end)
    (Merge.get string_dec
       (Merge.merge string_dec sample_host limits_base (Some limits_language)) "memory")
    = Some 264%nat /\
  option_map (fun e => match e with Merge.Reducer f => f 100%nat | Merge.Value v => v end)
    (Merge.get string_dec
       (Merge.merge string_dec sample_host limits_base (Some limits_language)) "toString")
    = Some 1%nat.
Proof.
  split; [exact limits_language_distinct | split; [exact limits_language_plain |]].
  rewrite !(merge_get string string_dec nat sample_host limits_base limits_language _
              limits_language_distinct limits_language_plain).
  split; reflexivity.
Defined.

Lemma merge_ownKeys_witness :
  NoDup (Merge.ownKeys limits_language) /\
  (forall key, In key (Merge.ownKeys limits_language) ->
               Merge.through_setter sample_host key = false) /\
  In "output"
    (Merge.ownKeys (Merge.merge string_dec sample_host limits_base (Some limits_language))).
Proof.
  split; [exact limits_language_distinct | split; [exact limits_language_plain |]].
  apply (proj1 (merge_ownKeys string string_dec nat sample_host limits_base limits_language
                  "output" limits_language_distinct limits_language_plain)).
  right. cbn. tauto.
Defined.

Lemma merge_merge_witness :
  NoDup (Merge.ownKeys limits_language) /\
  NoDup (Merge.ownKeys limits_task) /\
  Merge.object_prototype sample_host "memory" = None /\
  Merge.get string_dec
    (Merge.merge string_dec sample_host
       (Merge.merge string_dec sample_host limits_base (Some limits_language))
       (Some limits_task)) "memory"
  = Merge.get string_dec
      (Merge.merge string_dec sample_host limits_base
         (Some (Merge.merge string_dec sample_host limits_language (Some limits_task))))
      "memory".
Proof.
  split; [exact limits_language_distinct | split; [exact limits_task_distinct |]].
  split; [reflexivity |].
  apply (merge_merge string string_dec nat sample_host limits_base limits_language
           limits_task "memory" limits_language_distinct limits_task_distinct
           limits_language_plain limits_task_plain eq_refl).
  - intros p Hp. cbn in Hp. injection Hp as <-. reflexivity.
  - reflexivity.
Defined.

(** ** More on the retry loop *)

Lemma replay_writers_app (destination : string) (t1 t2 : list action) :
  forall opened,
    replay_writers destination opened (t1 ++ t2) =
      match replay_writers destination opened t1 with
      | Some opened' => replay_writers destination opened' t2
      | None => None
      end.
Proof.
  induction t1 as [| a t1 IH]; intros opened; cbn [app replay_writers]; [reflexivity |].
  destruct a; try apply IH.
  - destruct (negb opened && (path =? destination)); [apply IH | reflexivity].
  - destruct (opened && (path =? destination)); [apply IH | reflexivity].
  - destruct (opened && (path =? destination)); [apply IH | reflexivity].
Qed.

Lemma replay_writers_stream (destination : string) (events : list stream_event) :
  forall t,
    replay_writers destination true (stream_trace destination t WriterOpen events)
      = Some true.
Proof.
  induction events as [| [bytes | | | cause] later IH]; intros t; cbn; auto.
  - rewrite String.eqb_refl. apply IH.
  - destruct t; cbn; apply IH.
Qed.

(** The write stream of an attempt is created first and closed last, and is
    left open exactly when the attempt stays pending. *)
Lemma replay_writers_attempt (pool : Pool) (config : Config) (url destination : string)
  (behaviour : request_behaviour) :
  replay_writers destination false (attempt_trace pool config url destination behaviour)
    = Some (match script_outcome behaviour with Pending => true | _ => false end).
Proof.
  unfold attempt_trace. cbn [app replay_writers negb andb].
  rewrite String.eqb_refl.
  destruct behaviour as [| e | events]; cbn [script_outcome replay_writers andb].
  - reflexivity.
  - now rewrite String.eqb_refl.
  - rewrite replay_writers_app, replay_writers_stream.
    destruct (stream_outcome events); cbn; now rewrite ?String.eqb_refl.
Qed.

Section MoreRetryProperties.

Variable pool : Pool.
Variable config : Config.
Variables url destination description : string.
Variable src : source.

Local Abbreviation run_attempt := (attempt pool config url destination).
Local Abbreviation loop := (retry_loop pool config url destination description src).

Lemma retry_loop_writers (remaining : nat) :
  forall (attempt_no : nat) (before : disk),
    let r := loop remaining attempt_no before in
    replay_writers destination false (trace r) = Some (unsettled (settled r)).
Proof.
  induction remaining as [| retry IH]; intros attempt_no before; [reflexivity |].
  cbv zeta in *. rewrite retry_loop_step. cbv zeta.
  pose proof (replay_writers_attempt pool config url destination (src attempt_no))
    as Hattempt.
  rewrite <- (attempt_emitted_script pool config url destination (src attempt_no) before)
    in Hattempt.
  destruct (script_outcome (src attempt_no)) as [| e |]; cbn [settled trace unsettled];
    try exact Hattempt.
  destruct (negb (retry =? 0)%nat); cbn [after settled trace unsettled];
    [| exact Hattempt].
  rewrite replay_writers_app, Hattempt. apply IH.
Qed.

Lemma retry_loop_other_files (remaining : nat) :
  forall (attempt_no : nat) (before : disk) (p : string),
    p <> destination ->
    files_after (loop remaining attempt_no before) p = before p.
Proof.
  induction remaining as [| retry IH]; intros attempt_no before p Hother; [reflexivity |].
  rewrite retry_loop_step. cbv zeta.
  pose proof (attempt_files_script pool config url destination (src attempt_no) before p)
    as Hattempt.
  apply String.eqb_neq in Hother as Hneq. rewrite Hneq in Hattempt.
  destruct (script_outcome (src attempt_no)) as [| e |]; cbn [files_after];
    try exact Hattempt.
  destruct (negb (retry =? 0)%nat); cbn [after files_after]; [| exact Hattempt].
  rewrite IH by exact Hother. exact Hattempt.
Qed.

Lemma retry_loop_contacts (remaining : nat) :
  forall (attempt_no : nat) (before : disk),
    let r := loop remaining attempt_no before in
    (network_contacts (trace r) <= remaining)%nat /\
    ((exists message, settled r = Some (Rejected message)) ->
     network_contacts (trace r) = remaining).
Proof.
  induction remaining as [| retry IH]; intros attempt_no before; cbv zeta.
  - split; [cbn; lia | intros [message Hrejected]; discriminate].
  - rewrite retry_loop_step. cbv zeta.
    pose proof (network_contacts_attempt pool config url destination (src attempt_no))
      as Hone.
    rewrite <- (attempt_emitted_script pool config url destination (src attempt_no) before)
      in Hone.
    destruct (script_outcome (src attempt_no)) as [| e |]; cbn [settled trace].
    + split; [lia | intros [message Hrejected]; discriminate].
    + destruct retry as [| retry]; cbn [Nat.eqb negb after settled trace].
      * split; [lia | intros _; exact Hone].
      * rewrite network_contacts_app, Hone.
        destruct (IH (S attempt_no) (files (snd (run_attempt (src attempt_no) before))))
          as [Hbound Hall].
        split; [lia |]. intros Hrejected. rewrite (Hall Hrejected). reflexivity.
    + split; [lia | intros [message Hrejected]; discriminate].
Qed.

(** How the promise settles, read off the source: it stays pending when the
    first attempt that does not fail, within the iterations, stays pending;
    it resolves when that attempt succeeds or when there is no iteration; it
    rejects when every iteration fails. *)
Lemma retry_loop_settles (remaining : nat) :
  forall (attempt_no : nat) (before : disk),
    match settled (loop remaining attempt_no before) with
    | None =>
        exists g, (g < remaining)%nat /\
          (forall j, (j < g)%nat -> fails (src (attempt_no + j)) = true) /\
          script_outcome (src (attempt_no + g)) = Pending
    | Some (Resolved _) =>
        remaining = 0%nat \/
        exists g, (g < remaining)%nat /\
          (forall j, (j < g)%nat -> fails (src (attempt_no + j)) = true) /\
          succeeds (src (attempt_no + g)) = true
    | Some (Rejected _) =>
        (1 <= remaining)%nat /\
        forall j, (j < remaining)%nat -> fails (src (attempt_no + j)) = true
    end.
Proof.
  induction remaining as [| retry IH]; intros attempt_no before; [now left |].
  rewrite retry_loop_step. cbv zeta.
  destruct (script_outcome (src attempt_no)) as [| e |] eqn:Houtcome; cbn [settled].
  - right. exists 0%nat. split; [lia |]. split; [intros; lia |].
    rewrite Nat.add_0_r. unfold succeeds. now rewrite Houtcome.
  - assert (Hfails : fails (src attempt_no) = true)
      by (unfold fails; now rewrite Houtcome).
    assert (Hshift : forall g,
               (forall j, (j < g)%nat -> fails (src (S attempt_no + j)) = true) ->
               forall j, (j < S g)%nat -> fails (src (attempt_no + j)) = true).
    { intros g Hg [| j] Hj; [now rewrite Nat.add_0_r |].
      replace (attempt_no + S j)%nat with (S attempt_no + j)%nat by lia.
      apply Hg. lia. }
    destruct retry as [| retry]; cbn [Nat.eqb negb after settled].
    + split; [lia |]. intros j Hj. replace j with 0%nat by lia.
      now rewrite Nat.add_0_r.
    + specialize (IH (S attempt_no) (files (snd (run_attempt (src attempt_no) before)))).
      destruct (settled _) as [[[] | message] |].
      * right. destruct IH as [Hzero | (g & Hg & Hbefore & Hlast)]; [discriminate |].
        exists (S g). split; [lia |]. split; [now apply Hshift |].
        now replace (attempt_no + S g)%nat with (S attempt_no + g)%nat by lia.
      * destruct IH as [_ Hall]. split; [lia |]. now apply Hshift.
      * destruct IH as (g & Hg & Hbefore & Hlast).
        exists (S g). split; [lia |]. split; [now apply Hshift |].
        now replace (attempt_no + S g)%nat with (S attempt_no + g)%nat by lia.
  - exists 0%nat. split; [lia |]. split; [intros; lia |].
    now rewrite Nat.add_0_r.
Qed.

(** When every iteration fails, the destination is left with what the
    last attempt handed to its stream. *)
Lemma retry_loop_exhausted_files (last : nat) :
  forall (attempt_no : nat) (before : disk),
    (forall j, (j <= last)%nat -> fails (src (attempt_no + j)) = true) ->
    files_after (loop (S last) attempt_no before) destination
      = written_by (src (attempt_no + last)).
Proof.
  induction last as [| last IH]; intros attempt_no before Hfails;
    rewrite retry_loop_step; cbv zeta;
    pose proof (Hfails 0%nat ltac:(lia)) as Hfirst;
    rewrite Nat.add_0_r in Hfirst;
    destruct (fails_outcome _ Hfirst) as [e ->]; cbn [Nat.eqb negb after files_after].
  - rewrite Nat.add_0_r, attempt_files_script. now rewrite String.eqb_refl.
  - rewrite IH.
    + now replace (S attempt_no + last)%nat with (attempt_no + S last)%nat by lia.
    + intros j Hj. replace (S attempt_no + j)%nat with (attempt_no + S j)%nat by lia.
      apply Hfails. lia.
Qed.

End MoreRetryProperties.

(** ** More on [download] *)

(** X4.  In every run of [download], whatever the source does, the calls on
    write streams come in this order: streams are created on the destination
    only; a stream is created only once [close()] has been called on the
    one created before it; bytes are handed to a stream, and [close()] is
    called on it, only after its creation and before any later call of
    [close()]; when the promise has settled [close()] has been called on
    every stream created, and when it stays pending it has not been called
    on the last one.  This orders the calls only: [close()] is not awaited,
    and the descriptor of one attempt may still be open when the next
    attempt creates its stream. *)
Theorem download_one_writer_at_a_time (config : Config)
  (url destination description : string) (src : source) (before : disk) :
  let r := download config url destination description src before in
  replay_writers destination false (trace r) = Some (unsettled (settled r)).
Proof.
  cbv zeta. unfold download, download_call. apply retry_loop_writers.
Qed.

(** X5.  [download] changes no file but the destination, however it ends. *)
Theorem download_leaves_other_files (config : Config)
  (url destination description : string) (src : source) (before : disk) (p : string) :
  p <> destination ->
  files_after (download config url destination description src before) p = before p.
Proof.
  intros Hother. unfold download, download_call. now apply retry_loop_other_files.
Qed.

Lemma download_leaves_other_files_witness :
  "/judge/data.zip" <> "/judge/other.zip" /\
  files_after (download three_tries "http://oj/other.zip" "/judge/other.zip" "other data"
                 two_failures_then_body stale_disk) "/judge/data.zip"
    = stale_disk "/judge/data.zip".
Proof.
  assert (H : "/judge/data.zip" <> "/judge/other.zip") by discriminate.
  split; [exact H |].
  exact (download_leaves_other_files three_tries "http://oj/other.zip" "/judge/other.zip"
           "other data" two_failures_then_body stale_disk "/judge/data.zip" H).
Defined.

(** X6.  Whatever the source does, [download] contacts the network at most
    [downloadRetry] times (never, when [downloadRetry] is not positive), and
    a call that rejects has contacted it exactly [downloadRetry] times. *)
Theorem download_contacts_bounded (config : Config)
  (url destination description : string) (src : source) (before : disk) :
  let r := download config url destination description src before in
  (Z.of_nat (network_contacts (trace r)) <= Z.max 0 (downloadRetry config))%Z /\
  ((exists message, settled r = Some (Rejected message)) ->
   Z.of_nat (network_contacts (trace r)) = downloadRetry config).
Proof.
  cbv zeta. unfold download, download_call.
  destruct (retry_loop_contacts (fst module_init) config url destination description src
              (Z.to_nat (downloadRetry config)) 0 before) as [Hbound Hall].
  split; [lia |].
  intros Hrejected. rewrite (Hall Hrejected).
  destruct (Z.to_nat (downloadRetry config)) eqn:Hretry; [| lia].
  destruct Hrejected as [message Hrejected]. cbn in Hrejected. discriminate.
Qed.

(** The first attempt that does not fail is the same, however it is found. *)
Lemma first_decisive_unique (src : source) (g g' : nat) :
  (forall j, (j < g)%nat -> fails (src j) = true) -> fails (src g) = false ->
  (forall j, (j < g')%nat -> fails (src j) = true) -> fails (src g') = false ->
  g = g'.
Proof.
  intros Hbefore Hat Hbefore' Hat'.
  destruct (Nat.lt_trichotomy g g') as [Hlt | [Heq | Hgt]]; [| exact Heq |].
  - rewrite (Hbefore' g Hlt) in Hat. discriminate.
  - rewrite (Hbefore g' Hgt) in Hat'. discriminate.
Qed.

(** X7.  How a call of [download] settles is decided by the first attempt
    that does not fail.  The promise stays pending exactly when that attempt
    is among the [downloadRetry] attempts and stays pending; it rejects
    exactly when [downloadRetry] is at least 1 and every one of the
    [downloadRetry] attempts fails; it resolves exactly when [downloadRetry]
    is not positive or that attempt is among the [downloadRetry] attempts
    and succeeds. *)
Theorem download_settles_iff (config : Config)
  (url destination description : string) (src : source) (before : disk) :
  let r := download config url destination description src before in
  (settled r = None <->
     exists i, (Z.of_nat i < downloadRetry config)%Z /\
       (forall j, (j < i)%nat -> fails (src j) = true) /\
       script_outcome (src i) = Pending) /\
  ((exists message, settled r = Some (Rejected message)) <->
     (1 <= downloadRetry config)%Z /\
     forall j, (Z.of_nat j < downloadRetry config)%Z -> fails (src j) = true) /\
  (settled r = Some (Resolved tt) <->
     (downloadRetry config <= 0)%Z \/
     exists i, (Z.of_nat i < downloadRetry config)%Z /\
       (forall j, (j < i)%nat -> fails (src j) = true) /\
       succeeds (src i) = true).
Proof.
  cbv zeta. unfold download, download_call.
  pose proof (retry_loop_settles (fst module_init) config url destination description src
                (Z.to_nat (downloadRetry config)) 0 before) as Hcases.
  cbn [Nat.add] in Hcases.
  set (r := retry_loop (fst module_init) config url destination description src
              (Z.to_nat (downloadRetry config)) 0 before) in *.
  assert (Hpending : forall i, script_outcome (src i) = Pending -> fails (src i) = false)
    by (intros i Hi; unfold fails; now rewrite Hi).
  assert (Hsucceeds : forall i, succeeds (src i) = true -> fails (src i) = false)
    by (intros i Hi; unfold fails; now rewrite (succeeds_outcome _ Hi)).
  assert (Hclash : forall i, script_outcome (src i) = Pending -> succeeds (src i) = true -> False)
    by (intros i Hi Hs; rewrite (succeeds_outcome _ Hs) in Hi; discriminate).
  split; [| split].
  - split.
    + intros Hsettled. rewrite Hsettled in Hcases.
      destruct Hcases as (g & Hg & Hbefore & Hat). exists g. split; [lia | now split].
    + intros (i & Hi & Hbefore & Hat).
      destruct (settled r) as [[[] | message] |]; [| | reflexivity]; exfalso.
      * destruct Hcases as [Hzero | (g & Hg & Hbefore' & Hat')]; [lia |].
        assert (i = g) by (eapply first_decisive_unique; eauto). subst g. eauto.
      * destruct Hcases as [_ Hall]. specialize (Hall i ltac:(lia)).
        rewrite (Hpending i Hat) in Hall. discriminate.
  - split.
    + intros [message Hsettled]. rewrite Hsettled in Hcases.
      destruct Hcases as [Hone Hall]. split; [lia |]. intros j Hj. apply Hall. lia.
    + intros [Hone Hall].
      destruct (settled r) as [[[] | message] |]; [| now exists message |]; exfalso.
      * destruct Hcases as [Hzero | (g & Hg & Hbefore' & Hat')]; [lia |].
        specialize (Hall g ltac:(lia)). rewrite (Hsucceeds g Hat') in Hall. discriminate.
      * destruct Hcases as (g & Hg & Hbefore' & Hat').
        specialize (Hall g ltac:(lia)). rewrite (Hpending g Hat') in Hall. discriminate.
  - split.
    + intros Hsettled. rewrite Hsettled in Hcases.
      destruct Hcases as [Hzero | (g & Hg & Hbefore & Hat)]; [left; lia | right].
      exists g. split; [lia | now split].
    + intros Hwhy.
      destruct (settled r) as [[[] | message] |]; [reflexivity | |]; exfalso.
      * destruct Hcases as [Hone Hall].
        destruct Hwhy as [Hnone | (i & Hi & Hbefore & Hat)]; [lia |].
        specialize (Hall i ltac:(lia)). rewrite (Hsucceeds i Hat) in Hall. discriminate.
      * destruct Hcases as (g & Hg & Hbefore' & Hat').
        destruct Hwhy as [Hnone | (i & Hi & Hbefore & Hat)]; [lia |].
        assert (i = g) by (eapply first_decisive_unique; eauto). subst g. eauto.
Qed.

(** X8.  With a [downloadRetry] that is not positive the loop has no
    iteration: [download] resolves at once, without creating the
    destination, contacting the network or arming a timer. *)
Theorem download_without_retries (config : Config)
  (url destination description : string) (src : source) (before : disk) :
  (downloadRetry config <= 0)%Z ->
  download config url destination description src before
    = {| settled := Some (Resolved tt); files_after := before; trace := [] |}.
Proof.
  intros Hretry. unfold download, download_call.
  replace (Z.to_nat (downloadRetry config)) with 0%nat by lia. reflexivity.
Qed.

Lemma download_without_retries_witness :
  (downloadRetry no_tries <= 0)%Z /\
  download no_tries "http://oj/data.zip" "/judge/data.zip" "test data" silent stale_disk
    = {| settled := Some (Resolved tt); files_after := stale_disk; trace := [] |}.
Proof.
  assert (H : (downloadRetry no_tries <= 0)%Z) by (cbn; lia).
  split; [exact H |].
  exact (download_without_retries no_tries "http://oj/data.zip" "/judge/data.zip"
           "test data" silent stale_disk H).
Defined.

(** X9.  When every one of the [downloadRetry] attempts fails with an
    error that the code sees, and the request of the last one is rejected,
    the destination is left empty: what the file held before the call, and
    what earlier attempts wrote, is gone. *)
Theorem download_refused_leaves_empty_file (config : Config)
  (url destination description : string) (src : source) (last : nat) (before : disk)
  (e : string) :
  downloadRetry config = Z.of_nat (S last) ->
  (forall i, (i <= last)%nat -> fails (src i) = true) ->
  src last = RequestError e ->
  files_after (download config url destination description src before) destination = [].
Proof.
  intros Hretry Hfails Hlast. unfold download, download_call. rewrite Hretry, Nat2Z.id.
  rewrite (retry_loop_exhausted_files (fst module_init) config url destination description
             src last 0 before Hfails).
  cbn [Nat.add]. now rewrite Hlast.
Qed.

Lemma download_refused_leaves_empty_file_witness :
  downloadRetry two_tries = Z.of_nat 2 /\
  (forall i, (i <= 1)%nat -> fails (always_refused i) = true) /\
  files_after (download two_tries "http://oj/data.zip" "/judge/data.zip" "test data"
                 always_refused stale_disk) "/judge/data.zip" = [].
Proof.
  assert (H1 : downloadRetry two_tries = Z.of_nat 2) by reflexivity.
  assert (H2 : forall i, (i <= 1)%nat -> fails (always_refused i) = true).
  { intros [| [| i]] Hi; [reflexivity | reflexivity | lia]. }
  split; [exact H1 | split; [exact H2 |]].
  exact (download_refused_leaves_empty_file two_tries "http://oj/data.zip"
           "/judge/data.zip" "test data" always_refused 1 stale_disk _ H1 H2 eq_refl).
Defined.

(** ** More on [readFileLimited] *)

Section MoreReadFileLimitedProperties.

Variable toStringUtf8 : list Byte.byte -> string.

Local Abbreviation readFileLimited := (ReadFile.readFileLimited toStringUtf8).

(** The run of [readFileLimited] on a file that opens, for any limit. *)
Lemma readFileLimited_opened (fs : filesystem) (filePath : string) (lengthLimit : Z)
  (f : fs_file) :
  fs filePath = Opens f ->
  readFileLimited fs filePath lengthLimit =
    let wanted := Z.min (Z.of_nat (List.length (file_bytes f))) lengthLimit in
    let reads :=
      match stat_fails f with
      | Some _ => false
      | None => negb (wanted <? 0)%Z
      end in
    (match close_fails f with
     | Some e => Rejected e
     | None =>
         Resolved (if reads
                   then match read_fails f with
                        | Some _ => ""
                        | None => toStringUtf8 (ReadFile.bytes_delivered f wanted 0)
                        end
                   else "")
     end,
     ([CallOpen filePath; CallStat]
        ++ (if reads then [CallRead wanted 0] else [])
        ++ [CallClose])%list).
Proof.
  intros Hopens.
  unfold ReadFile.readFileLimited, ReadFile.body, Async.run,
    Async.try_finally, Async.try_catch, Async.bind, ReadFile.fs_open,
    ReadFile.log, ReadFile.read_file_var, ReadFile.assign_file.
  cbn [ReadFile.entered ReadFile.file ReadFile.calls app].
  rewrite Hopens. cbn.
  unfold ReadFile.stat_size, ReadFile.allocUnsafe, ReadFile.file_read,
    ReadFile.file_close, ReadFile.settle, ReadFile.log, Async.bind,
    Async.throw, Async.pure, Async.return_.
  cbn [ReadFile.file ReadFile.calls app].
  destruct (stat_fails f) as [es |]; cbn.
  - destruct (close_fails f); reflexivity.
  - destruct (Z.min (Z.of_nat (List.length (file_bytes f))) lengthLimit <? 0)%Z; cbn.
    + destruct (close_fails f); reflexivity.
    + destruct (read_fails f) as [er |]; cbn; destruct (close_fails f); reflexivity.
Qed.

(** X10.  With a negative [lengthLimit] a file that opens is never read:
    the calls are [open], [stat] and [close], and the promise resolves with
    the empty string, unless [close] fails. *)
Theorem readFileLimited_negative_limit (fs : filesystem) (filePath : string)
  (lengthLimit : Z) (f : fs_file) :
  (lengthLimit < 0)%Z ->
  fs filePath = Opens f ->
  readFileLimited fs filePath lengthLimit =
    (match close_fails f with
     | Some e => Rejected e
     | None => Resolved ""
     end,
     [CallOpen filePath; CallStat; CallClose]).
Proof.
  intros Hnegative Hopens. rewrite (readFileLimited_opened _ _ _ _ Hopens). cbv zeta.
  replace (Z.min (Z.of_nat (List.length (file_bytes f))) lengthLimit <? 0)%Z with true
    by (symmetry; apply Z.ltb_lt; lia).
  destruct (stat_fails f); reflexivity.
Qed.

(** X11.  When [stat], [read] and [close] succeed and the read is not cut
    short, the promise resolves with the decoding of the first [lengthLimit]
    bytes of the file, which is the whole file when it is no longer than
    that: the bytes beyond the limit play no part. *)
Theorem readFileLimited_healthy (fs : filesystem) (filePath : string)
  (lengthLimit : Z) (f : fs_file) :
  (0 <= lengthLimit)%Z ->
  fs filePath = Opens f ->
  stat_fails f = None -> read_fails f = None -> close_fails f = None ->
  read_short f = None ->
  fst (readFileLimited fs filePath lengthLimit)
    = Resolved (toStringUtf8 (firstn (Z.to_nat lengthLimit) (file_bytes f))).
Proof.
  intros Hlimit Hopens Hstat Hread Hclose Hshort.
  rewrite (readFileLimited_opened _ _ _ _ Hopens). cbv zeta.
  rewrite Hstat, Hread, Hclose. cbn [fst].
  replace (Z.min (Z.of_nat (List.length (file_bytes f))) lengthLimit <? 0)%Z with false
    by (symmetry; apply Z.ltb_ge; lia).
  cbn [negb]. unfold ReadFile.bytes_delivered. rewrite Hshort. cbn [Z.to_nat skipn].
  do 2 f_equal.
  destruct (Z.le_ge_cases (Z.of_nat (List.length (file_bytes f))) lengthLimit) as [Hle | Hge].
  - rewrite Z.min_l by exact Hle. rewrite Nat2Z.id.
    rewrite firstn_all. symmetry. apply firstn_all2. lia.
  - now rewrite Z.min_r by exact Hge.
Qed.

End MoreReadFileLimitedProperties.

Lemma readFileLimited_negative_limit_witness :
  (-1 < 0)%Z /\
  sample_fs "/judge/hello" = Opens healthy /\
  ReadFile.readFileLimited string_of_list_byte sample_fs "/judge/hello" (-1)
    = (Resolved "", [CallOpen "/judge/hello"; CallStat; CallClose]).
Proof.
  assert (H1 : (-1 < 0)%Z) by lia.
  assert (H2 : sample_fs "/judge/hello" = Opens healthy) by reflexivity.
  split; [exact H1 | split; [exact H2 |]].
  exact (readFileLimited_negative_limit string_of_list_byte sample_fs "/judge/hello"
           (-1) healthy H1 H2).
Defined.

Lemma readFileLimited_healthy_witness :
  (0 <= 9)%Z /\
  sample_fs "/judge/hello" = Opens healthy /\
  fst (ReadFile.readFileLimited string_of_list_byte sample_fs "/judge/hello" 9)
    = Resolved "hello".
Proof.
  assert (H1 : (0 <= 9)%Z) by lia.
  assert (H2 : sample_fs "/judge/hello" = Opens healthy) by reflexivity.
  split; [exact H1 | split; [exact H2 |]].
  rewrite (readFileLimited_healthy string_of_list_byte sample_fs "/judge/hello" 9 healthy
             H1 H2 eq_refl eq_refl eq_refl eq_refl).
  reflexivity.
Defined.

(** ** More on paths *)

Lemma split_nonempty (s : string) : Path.split s <> [].
Proof.
  destruct s as [| c rest]; cbn; [discriminate |].
  destruct (Ascii.eqb c Path.slash); [discriminate |].
  destruct (Path.split rest); discriminate.
Qed.

Lemma split_app_slash (s1 s2 : string) :
  Path.split (s1 ++ String Path.slash s2) = (Path.split s1 ++ Path.split s2)%list.
Proof.
  induction s1 as [| c rest IH]; cbn [append Path.split].
  - now rewrite Ascii.eqb_refl.
  - rewrite IH. destruct (Ascii.eqb c Path.slash); [reflexivity |].
    pose proof (split_nonempty rest) as Hrest.
    destruct (Path.split rest) as [| seg segs]; [congruence | reflexivity].
Qed.

Lemma split_slash_free (s : string) : has_slash s = false -> Path.split s = [s].
Proof.
  induction s as [| c rest IH]; cbn; [reflexivity |].
  intros Hfree. apply orb_false_elim in Hfree as [Hc Hrest].
  rewrite Hc, (IH Hrest). reflexivity.
Qed.

Lemma split_segments_slash_free (s : string) :
  Forall (fun seg => has_slash seg = false) (Path.split s).
Proof.
  induction s as [| c rest IH]; cbn.
  - repeat constructor.
  - destruct (Ascii.eqb c Path.slash) eqn:Hc; [now constructor |].
    destruct (Path.split rest) as [| seg segs]; [repeat constructor; cbn; now rewrite Hc |].
    inversion IH as [| ? ? Hseg Hsegs]; subst.
    constructor; [cbn; now rewrite Hc, Hseg | exact Hsegs].
Qed.

Lemma concat_cons (x y : string) (l : list string) :
  String.concat "/" (x :: y :: l) = x ++ String Path.slash (String.concat "/" (y :: l)).
Proof. reflexivity. Qed.

Lemma split_concat (l : list string) :
  l <> [] ->
  Forall (fun seg => has_slash seg = false) l ->
  Path.split (String.concat "/" l) = l.
Proof.
  induction l as [| x [| y l] IH]; intros Hsome Hfree; [congruence | |].
  - inversion Hfree; subst. now apply split_slash_free.
  - rewrite concat_cons, split_app_slash.
    inversion Hfree as [| ? ? Hx Hrest]; subst.
    rewrite (split_slash_free x Hx), IH; [reflexivity | discriminate | exact Hrest].
Qed.

Lemma get0_app (s1 s2 : string) :
  s1 <> "" -> String.get 0 (s1 ++ s2) = String.get 0 s1.
Proof. destruct s1; [congruence | reflexivity]. Qed.

Lemma last_char_app (s1 s2 : string) :
  s2 <> "" -> Path.last_char (s1 ++ s2) = Path.last_char s2.
Proof.
  intros Hsome. induction s1 as [| c rest IH]; [reflexivity |].
  cbn [append Path.last_char]. rewrite IH.
  destruct (rest ++ s2) eqn:Happ; [| reflexivity].
  destruct rest; cbn in Happ; [congruence | discriminate].
Qed.

Lemma slash_free_first (s : string) :
  has_slash s = false -> Path.is_slash (String.get 0 s) = false.
Proof.
  destruct s as [| c rest]; cbn; [reflexivity |].
  intros Hfree. now apply orb_false_elim in Hfree as [Hc _].
Qed.

Lemma slash_free_last (s : string) :
  has_slash s = false -> Path.is_slash (Path.last_char s) = false.
Proof.
  induction s as [| c rest IH]; cbn [has_slash Path.last_char]; [reflexivity |].
  intros Hfree. apply orb_false_elim in Hfree as [Hc Hrest].
  destruct rest; [exact Hc | now apply IH].
Qed.

Lemma concat_not_empty (x : string) (l : list string) :
  x <> "" -> String.concat "/" (x :: l) <> "".
Proof.
  intros Hx. destruct l as [| y l]; [exact Hx |].
  rewrite concat_cons. destruct x; [congruence | discriminate].
Qed.

Lemma concat_first (x : string) (l : list string) :
  x <> "" -> String.get 0 (String.concat "/" (x :: l)) = String.get 0 x.
Proof.
  intros Hx. destruct l as [| y l]; [reflexivity |].
  rewrite concat_cons. now apply get0_app.
Qed.

Lemma concat_last (l : list string) :
  l <> [] ->
  Forall (fun seg => seg <> "") l ->
  Path.last_char (String.concat "/" l) = Path.last_char (last l "").
Proof.
  induction l as [| x [| y l] IH]; intros Hsome Hfull; [congruence | reflexivity |].
  inversion Hfull as [| ? ? Hx Hrest]; subst.
  rewrite concat_cons.
  change (String Path.slash (String.concat "/" (y :: l)))
    with ("/" ++ String.concat "/" (y :: l)).
  assert (Hlater : String.concat "/" (y :: l) <> "").
  { apply concat_not_empty. now inversion Hrest. }
  rewrite last_char_app.
  - rewrite last_char_app by exact Hlater. rewrite IH; [reflexivity | discriminate | exact Hrest].
  - cbn. discriminate.
Qed.

Lemma all_dots_shaped (l : list string) :
  forallb (String.eqb "..") l = true -> shaped true l = true.
Proof.
  induction l as [| x l IH]; cbn [forallb shaped]; [reflexivity |].
  intros Hall. apply andb_prop in Hall as [Hx Hl].
  rewrite String.eqb_sym in Hx. now rewrite Hx.
Qed.

Lemma shaped_below (allow : bool) (seg : string) (below : list string) :
  shaped allow (seg :: below) = true -> shaped allow below = true.
Proof.
  cbn [shaped]. destruct (seg =? ".."); intros Hshaped;
    apply andb_prop in Hshaped as [Hfirst Hbelow]; [| exact Hbelow].
  subst allow. now apply all_dots_shaped.
Qed.

Lemma push_shaped (allow : bool) (stack : list string) (seg : string) :
  shaped allow stack = true -> shaped allow (Path.push_segment allow stack seg) = true.
Proof.
  intros Hshaped. unfold Path.push_segment.
  destruct (seg =? "") eqn:Hempty; [exact Hshaped |].
  destruct (seg =? ".") eqn:Hdot; [exact Hshaped |]. cbn [orb].
  destruct (seg =? "..") eqn:Hdots.
  - destruct stack as [| top below]; [destruct allow; reflexivity |].
    destruct (top =? "..") eqn:Htop.
    + destruct allow; [| exact Hshaped].
      cbn [shaped] in *. rewrite Htop in Hshaped.
      rewrite String.eqb_refl. cbn [forallb andb] in *.
      rewrite String.eqb_sym in Htop. now rewrite Htop.
    + now apply shaped_below in Hshaped.
  - cbn [shaped]. rewrite Hdots. unfold named. now rewrite Hempty, Hdot, Hdots.
Qed.

Lemma push_slash_free (allow : bool) (stack : list string) (seg : string) :
  has_slash seg = false ->
  Forall (fun s => has_slash s = false) stack ->
  Forall (fun s => has_slash s = false) (Path.push_segment allow stack seg).
Proof.
  intros Hseg Hstack. unfold Path.push_segment.
  destruct ((seg =? "") || (seg =? ".")); [exact Hstack |].
  destruct (seg =? "..").
  - destruct stack as [| top below]; [destruct allow; repeat constructor |].
    destruct (top =? "..").
    + destruct allow; [constructor; [reflexivity | exact Hstack] | exact Hstack].
    + now inversion Hstack.
  - now constructor.
Qed.

Lemma fold_push_shaped (allow : bool) (segs : list string) :
  forall stack,
    shaped allow stack = true ->
    shaped allow (fold_left (Path.push_segment allow) segs stack) = true.
Proof.
  induction segs as [| seg segs IH]; intros stack Hshaped; cbn [fold_left];
    [exact Hshaped |].
  apply IH. now apply push_shaped.
Qed.

Lemma fold_push_slash_free (allow : bool) (segs : list string) :
  Forall (fun s => has_slash s = false) segs ->
  forall stack,
    Forall (fun s => has_slash s = false) stack ->
    Forall (fun s => has_slash s = false) (fold_left (Path.push_segment allow) segs stack).
Proof.
  induction 1 as [| seg segs Hseg Hsegs IH]; intros stack Hstack; cbn [fold_left];
    [exact Hstack |].
  apply IH. now apply push_slash_free.
Qed.

(** The segments kept for a path have the shape of a normalized path and
    hold no separator. *)
Lemma kept_shaped (allow : bool) (path : string) :
  shaped allow (kept allow (Path.split path)) = true /\
  Forall (fun s => has_slash s = false) (kept allow (Path.split path)).
Proof.
  split.
  - now apply fold_push_shaped.
  - apply fold_push_slash_free; [apply split_segments_slash_free | constructor].
Qed.

Lemma shaped_not_empty (allow : bool) (stack : list string) :
  shaped allow stack = true -> Forall (fun s => s <> "") stack.
Proof.
  induction stack as [| seg below IH]; intros Hshaped; [constructor |].
  constructor; [| apply IH; now apply shaped_below in Hshaped].
  cbn [shaped] in Hshaped. destruct (String.eqb_spec seg "..") as [-> | _]; [discriminate |].
  apply andb_prop in Hshaped as [Hnamed _]. unfold named in Hnamed.
  destruct (String.eqb_spec seg "") as [-> | Hne]; [discriminate | exact Hne].
Qed.

(** Pushing the segments of a shaped stack again, from the first to the
    last, gives the stack back. *)
Lemma refold (allow : bool) (stack : list string) :
  shaped allow stack = true ->
  fold_left (Path.push_segment allow) (rev stack) [] = stack.
Proof.
  induction stack as [| seg below IH]; intros Hshaped; [reflexivity |].
  cbn [rev]. rewrite fold_left_app, IH by now apply shaped_below in Hshaped.
  cbn [fold_left shaped] in *. unfold Path.push_segment.
  destruct (seg =? "..") eqn:Hdots.
  - apply String.eqb_eq in Hdots. subst seg.
    apply andb_prop in Hshaped as [-> Hbelow]. cbn [String.eqb Ascii.eqb Bool.eqb orb].
    destruct below as [| top below]; [reflexivity |].
    cbn [forallb] in Hbelow. apply andb_prop in Hbelow as [Htop _].
    rewrite String.eqb_sym in Htop. now rewrite Htop.
  - apply andb_prop in Hshaped as [Hnamed _]. unfold named in Hnamed.
    rewrite Hdots, orb_false_r in Hnamed.
    destruct ((seg =? "") || (seg =? ".")); [discriminate | reflexivity].
Qed.

Lemma normalize_render (path : string) :
  path <> "" ->
  Path.normalize path
    = render (Path.isAbsolute path) (Path.is_slash (Path.last_char path))
        (kept (negb (Path.isAbsolute path)) (Path.split path)).
Proof.
  intros Hsome. apply String.eqb_neq in Hsome.
  unfold Path.normalize. now rewrite Hsome.
Qed.

Lemma append_empty_r (s : string) : s ++ "" = s.
Proof. induction s as [| c rest IH]; cbn; [reflexivity | now rewrite IH]. Qed.

Section RenderedPaths.

Variables absolute trailing : bool.
Variable allow : bool.
Variable stack : list string.

Hypothesis stack_some : stack <> [].
Hypothesis stack_shaped : shaped allow stack = true.
Hypothesis stack_slash_free : Forall (fun s => has_slash s = false) stack.

Local Abbreviation joined := (String.concat "/" (rev stack)).

Lemma rev_stack_some : rev stack <> [].
Proof.
  intros Hnil. apply stack_some. rewrite <- (rev_involutive stack), Hnil. reflexivity.
Qed.

Lemma joined_not_empty : joined <> "".
Proof.
  pose proof rev_stack_some as Hsome.
  pose proof (shaped_not_empty _ _ stack_shaped) as Hfull. apply Forall_rev in Hfull.
  destruct (rev stack) as [| x l]; [congruence |].
  apply concat_not_empty. now inversion Hfull.
Qed.

Lemma render_some :
  render absolute trailing stack
    = (if absolute then "/" else "") ++ (joined ++ (if trailing then "/" else "")).
Proof.
  unfold render. pose proof joined_not_empty as Hsome.
  apply String.eqb_neq in Hsome. rewrite Hsome.
  destruct absolute, trailing; cbn [append]; try reflexivity;
    now rewrite ?append_empty_r.
Qed.

Lemma joined_first : Path.is_slash (String.get 0 joined) = false.
Proof.
  pose proof rev_stack_some as Hsome.
  pose proof (shaped_not_empty _ _ stack_shaped) as Hfull. apply Forall_rev in Hfull.
  pose proof (Forall_rev stack_slash_free) as Hfree.
  destruct (rev stack) as [| x l]; [congruence |].
  rewrite concat_first by now inversion Hfull.
  apply slash_free_first. now inversion Hfree.
Qed.

Lemma joined_last : Path.is_slash (Path.last_char joined) = false.
Proof.
  pose proof rev_stack_some as Hsome.
  pose proof (shaped_not_empty _ _ stack_shaped) as Hfull. apply Forall_rev in Hfull.
  pose proof (Forall_rev stack_slash_free) as Hfree.
  rewrite concat_last by assumption.
  apply slash_free_last.
  destruct (exists_last Hsome) as (l & z & Hlast). rewrite Hlast in *.
  rewrite last_last. apply Forall_app in Hfree as [_ Hz]. now inversion Hz.
Qed.

Lemma render_not_empty : render absolute trailing stack <> "".
Proof.
  rewrite render_some. pose proof joined_not_empty as Hsome.
  destruct absolute; cbn [append]; [discriminate |].
  destruct joined; [congruence | discriminate].
Qed.

Lemma render_absolute : Path.isAbsolute (render absolute trailing stack) = absolute.
Proof.
  rewrite render_some. unfold Path.isAbsolute.
  destruct absolute; cbn [append]; [reflexivity |].
  rewrite get0_app by apply joined_not_empty. apply joined_first.
Qed.

Lemma render_trailing :
  Path.is_slash (Path.last_char (render absolute trailing stack)) = trailing.
Proof.
  rewrite render_some. pose proof joined_not_empty as Hsome.
  assert (Hinner : Path.is_slash
                     (Path.last_char (joined ++ (if trailing then "/" else "")))
                   = trailing).
  { destruct trailing.
    - now rewrite last_char_app by discriminate.
    - rewrite append_empty_r. apply joined_last. }
  destruct absolute; cbn [append]; [| exact Hinner].
  change (String "/" (joined ++ (if trailing then "/" else "")))
    with ("/" ++ (joined ++ (if trailing then "/" else ""))).
  rewrite last_char_app; [exact Hinner |].
  destruct joined; [congruence | discriminate].
Qed.

Lemma render_split :
  Path.split (render absolute trailing stack)
    = ((if absolute then [""] else [])
         ++ rev stack ++ (if trailing then [""] else []))%list.
Proof.
  rewrite render_some.
  assert (Hinner : Path.split (joined ++ (if trailing then "/" else ""))
                   = (rev stack ++ (if trailing then [""] else []))%list).
  { destruct trailing.
    - change "/" with (String Path.slash "").
      rewrite split_app_slash, split_concat;
        [reflexivity | apply rev_stack_some | now apply Forall_rev].
    - rewrite append_empty_r, app_nil_r.
      apply split_concat; [apply rev_stack_some | now apply Forall_rev]. }
  destruct absolute; cbn [append app]; [| exact Hinner].
  cbn [Path.split]. change (Ascii.eqb "/" Path.slash) with true. cbn match.
  now rewrite Hinner.
Qed.

Lemma push_empty (st : list string) : Path.push_segment allow st "" = st.
Proof. reflexivity. Qed.

Lemma render_kept :
  kept allow (Path.split (render absolute trailing stack)) = stack.
Proof.
  unfold kept. rewrite render_split, !fold_left_app.
  assert (Hfirst : fold_left (Path.push_segment allow) (if absolute then [""] else []) []
                   = []) by now destruct absolute.
  rewrite Hfirst, refold by exact stack_shaped.
  now destruct trailing.
Qed.

End RenderedPaths.

(** What [normalize] keeps of a path that is not empty: whether it is
    absolute and its kept segments; and normalizing again changes nothing. *)
Lemma normalize_facts (path : string) :
  path <> "" ->
  Path.normalize path <> "" /\
  Path.isAbsolute (Path.normalize path) = Path.isAbsolute path /\
  kept (negb (Path.isAbsolute path)) (Path.split (Path.normalize path))
    = kept (negb (Path.isAbsolute path)) (Path.split path) /\
  Path.normalize (Path.normalize path) = Path.normalize path.
Proof.
  intros Hsome. rewrite (normalize_render path Hsome).
  destruct (kept_shaped (negb (Path.isAbsolute path)) path) as [Hshaped Hfree].
  set (absolute := Path.isAbsolute path) in *.
  set (trailing := Path.is_slash (Path.last_char path)) in *.
  set (stack := kept (negb absolute) (Path.split path)) in *.
  destruct stack as [| top below] eqn:Hstack.
  - destruct absolute, trailing; cbn; repeat split; discriminate.
  - assert (Hnonempty : top :: below <> []) by discriminate.
    pose proof (render_not_empty absolute trailing _ _ Hnonempty Hshaped) as Hrendered.
    pose proof (render_absolute absolute trailing _ _ Hnonempty Hshaped Hfree) as Habsolute.
    pose proof (render_trailing absolute trailing _ _ Hnonempty Hshaped Hfree) as Htrailing.
    pose proof (render_kept absolute trailing _ _ Hnonempty Hshaped Hfree) as Hkept.
    repeat split; try assumption.
    rewrite (normalize_render _ Hrendered), Habsolute, Htrailing, Hkept. reflexivity.
Qed.

Lemma normalize_not_empty (path : string) : Path.normalize path <> "".
Proof.
  destruct (String.eqb_spec path "") as [-> | Hsome]; [discriminate |].
  now apply normalize_facts.
Qed.

(** X12.  [normalize] is idempotent, and what [join] returns is already
    normalized: the child path of [doSafelyJoin], written
    [normalize(join(...paths))], is [join(...paths)] itself. *)
Theorem normalize_idempotent (path : string) (paths : list string) :
  Path.normalize (Path.normalize path) = Path.normalize path /\
  Path.normalize (Path.join paths) = Path.join paths.
Proof.
  assert (Hidempotent : forall p, Path.normalize (Path.normalize p) = Path.normalize p).
  { intros p. destruct (String.eqb_spec p "") as [-> | Hsome]; [reflexivity |].
    now apply normalize_facts. }
  split; [apply Hidempotent |].
  unfold Path.join. destruct (filter _ paths); [reflexivity | apply Hidempotent].
Qed.

Lemma join_normalized (paths : list string) :
  Path.normalize (Path.join paths) = Path.join paths.
Proof.
  unfold Path.join. destruct (filter _ paths) as [| x l]; [reflexivity |].
  set (p := String.concat "/" (x :: l)).
  destruct (String.eqb_spec p "") as [-> | Hsome]; [reflexivity |].
  now apply normalize_facts.
Qed.

Lemma fold_push_names (allow : bool) (segs : list string) :
  Forall (fun seg => (seg =? "..") = false) segs ->
  forall stack,
    fold_left (Path.push_segment allow) segs stack
      = (rev (filter counts segs) ++ stack)%list.
Proof.
  induction 1 as [| seg segs Hseg Hsegs IH]; intros stack; cbn [fold_left filter];
    [reflexivity |].
  rewrite IH. unfold Path.push_segment, counts. rewrite Hseg.
  destruct ((seg =? "") || (seg =? ".")); cbn [negb]; [reflexivity |].
  cbn [rev]. now rewrite <- app_assoc.
Qed.

Lemma all_dots_rev (l : list string) :
  forallb (String.eqb "..") l = true ->
  exists l', (rev l ++ [".."])%list = ".." :: l'.
Proof.
  intros Hall. destruct (rev l) as [| x l'] eqn:Hrev; [now exists [] |].
  exists (l' ++ [".."])%list. cbn [app]. f_equal.
  rewrite forallb_forall in Hall.
  assert (Hin : In x l) by (apply in_rev; rewrite Hrev; now left).
  symmetry. now apply String.eqb_eq, Hall.
Qed.

(** The kept segments hold no [".."], or the path may climb and its first
    kept segment is [".."]. *)
Lemma shaped_dots (allow : bool) (stack : list string) :
  shaped allow stack = true ->
  Forall (fun seg => (seg =? "..") = false) stack \/
  (allow = true /\ exists l, rev stack = ".." :: l).
Proof.
  induction stack as [| seg below IH]; intros Hshaped; [left; constructor |].
  pose proof (shaped_below _ _ _ Hshaped) as Hbelow.
  cbn [shaped] in Hshaped. destruct (seg =? "..") eqn:Hseg.
  - right. apply andb_prop in Hshaped as [-> Hall]. split; [reflexivity |].
    apply String.eqb_eq in Hseg. subst seg. cbn [rev]. now apply all_dots_rev.
  - destruct (IH Hbelow) as [Hnone | [Hallow [l Hrev]]].
    + left. now constructor.
    + right. split; [exact Hallow |]. exists (l ++ [seg])%list. cbn [rev]. now rewrite Hrev.
Qed.

(** A normalized path that does not begin with [".."] has no [".."]
    segment. *)
Lemma normalized_without_dots (path : string) :
  String.prefix ".." (Path.normalize path) = false ->
  Forall (fun seg => (seg =? "..") = false) (Path.split (Path.normalize path)).
Proof.
  destruct (String.eqb_spec path "") as [-> | Hsome]; [repeat constructor |].
  rewrite (normalize_render path Hsome).
  destruct (kept_shaped (negb (Path.isAbsolute path)) path) as [Hshaped Hfree].
  set (absolute := Path.isAbsolute path) in *.
  set (trailing := Path.is_slash (Path.last_char path)) in *.
  set (stack := kept (negb absolute) (Path.split path)) in *.
  destruct stack as [| top below] eqn:Hstack.
  - destruct absolute, trailing; cbn; repeat constructor.
  - assert (Hnonempty : top :: below <> []) by discriminate.
    rewrite (render_split absolute trailing _ _ Hnonempty Hshaped Hfree).
    intros Hprefix.
    destruct (shaped_dots _ _ Hshaped) as [Hnone | [Hallow [l Hrev]]].
    + apply Forall_app. split; [destruct absolute; repeat constructor |].
      apply Forall_app. split; [now apply Forall_rev |].
      destruct trailing; repeat constructor.
    + exfalso. destruct absolute; [discriminate |].
      rewrite (render_some false trailing _ _ Hnonempty Hshaped) in Hprefix.
      rewrite Hrev in Hprefix.
      destruct l as [| y l], trailing; cbn in Hprefix; discriminate.
Qed.

(** X13.  When [doSafelyJoin] returns, for a base path that is not empty,
    the joined path stays under the base: it is absolute exactly when the
    base is, and its segments are the segments of the base followed by
    names only, without any [".."]. *)
Theorem doSafelyJoin_contained (basePath : string) (paths : list string)
  (joinedPath : string) :
  basePath <> "" ->
  doSafelyJoin basePath paths = Returns joinedPath ->
  contained basePath joinedPath.
Proof.
  intros Hbase. unfold doSafelyJoin.
  set (childPath := Path.normalize (Path.join paths)).
  destruct (String.prefix ".." childPath) eqn:Hprefix; [discriminate |].
  intros [= <-].
  pose proof (normalize_not_empty (Path.join paths)) as Hchild. fold childPath in Hchild.
  assert (Hjoin : Path.join [basePath; childPath]
                  = Path.normalize (basePath ++ String Path.slash childPath)).
  { unfold Path.join. cbn [filter].
    apply String.eqb_neq in Hbase, Hchild. now rewrite Hbase, Hchild. }
  rewrite Hjoin.
  set (z := basePath ++ String Path.slash childPath).
  assert (Hz : z <> "") by (subst z; destruct basePath; [congruence | discriminate]).
  assert (Habsolute : Path.isAbsolute z = Path.isAbsolute basePath)
    by (unfold Path.isAbsolute; subst z; now rewrite get0_app).
  destruct (normalize_facts z Hz) as (_ & Hsame & Hkept & _).
  split; [congruence |].
  exists (filter counts (Path.split childPath)). split.
  - unfold segments. rewrite Hsame, Hkept, Habsolute.
    unfold kept. subst z. rewrite split_app_slash, fold_left_app.
    rewrite fold_push_names by now apply normalized_without_dots.
    now rewrite rev_app_distr, rev_involutive.
  - pose proof (normalized_without_dots _ Hprefix) as Hnone. fold childPath in Hnone.
    induction Hnone as [| seg segs Hseg Hsegs IH]; cbn [filter]; [constructor |].
    destruct (counts seg) eqn:Hcounts; [| exact IH].
    constructor; [| exact IH].
    unfold named, counts in *. rewrite Hseg, orb_false_r. exact Hcounts.
Qed.

Lemma doSafelyJoin_contained_witness :
  "/judge/work" <> "" /\
  doSafelyJoin "/judge/work" ["data/"; "../out"; "/1.txt"] = Returns "/judge/work/out/1.txt" /\
  contained "/judge/work" "/judge/work/out/1.txt".
Proof.
  assert (H1 : "/judge/work" <> "") by discriminate.
  assert (H2 : doSafelyJoin "/judge/work" ["data/"; "../out"; "/1.txt"]
               = Returns "/judge/work/out/1.txt") by reflexivity.
  split; [exact H1 | split; [exact H2 |]].
  exact (doSafelyJoin_contained "/judge/work" ["data/"; "../out"; "/1.txt"]
           "/judge/work/out/1.txt" H1 H2).
Defined.

Lemma append_associative (a b c : string) : (a ++ b) ++ c = a ++ (b ++ c).
Proof. induction a as [| x a IH]; cbn; [reflexivity | now rewrite IH]. Qed.

Lemma prefix_empty (s : string) : String.prefix "" s = true.
Proof. now destruct s. Qed.

Lemma prefix_dots_head (first tail : string) :
  first <> "" -> first <> "." ->
  String.prefix ".." (first ++ tail) = String.prefix ".." first.
Proof.
  intros Hsome Hdot.
  destruct first as [| c1 [| c2 rest]]; [congruence | |].
  - cbn [append String.prefix].
    destruct (ascii_dec "." c1) as [<- | _]; [congruence |].
    reflexivity.
  - cbn [append String.prefix].
    destruct (ascii_dec "." c1); [| reflexivity].
    destruct (ascii_dec "." c2); [| reflexivity].
    now rewrite !prefix_empty.
Qed.

Lemma shaped_not_dot (allow : bool) (stack : list string) :
  shaped allow stack = true -> Forall (fun s => s <> ".") stack.
Proof.
  induction stack as [| seg below IH]; intros Hshaped; [constructor |].
  constructor; [| apply IH; now apply shaped_below in Hshaped].
  cbn [shaped] in Hshaped. destruct (String.eqb_spec seg "..") as [-> | _]; [discriminate |].
  apply andb_prop in Hshaped as [Hnamed _]. unfold named in Hnamed.
  destruct (String.eqb_spec seg ".") as [-> | Hne]; [| exact Hne].
  rewrite orb_true_r in Hnamed. discriminate.
Qed.

Lemma normalized_begins_with_dots (path : string) :
  String.prefix ".." (Path.normalize path) = begins_with_dots (Path.normalize path).
Proof.
  destruct (String.eqb_spec path "") as [-> | Hsome]; [reflexivity |].
  rewrite (normalize_render path Hsome).
  destruct (kept_shaped (negb (Path.isAbsolute path)) path) as [Hshaped Hfree].
  set (absolute := Path.isAbsolute path) in *.
  set (trailing := Path.is_slash (Path.last_char path)) in *.
  set (stack := kept (negb absolute) (Path.split path)) in *.
  destruct stack as [| top below] eqn:Hstack.
  - destruct absolute, trailing; reflexivity.
  - assert (Hnonempty : top :: below <> []) by discriminate.
    unfold begins_with_dots, segments.
    rewrite (render_absolute absolute trailing _ _ Hnonempty Hshaped Hfree).
    rewrite (render_kept absolute trailing _ _ Hnonempty Hshaped Hfree).
    rewrite (render_some absolute trailing _ _ Hnonempty Hshaped).
    destruct absolute; [reflexivity |]. cbn [negb andb append].
    pose proof (shaped_not_empty _ _ Hshaped) as Hfull. apply Forall_rev in Hfull.
    pose proof (shaped_not_dot _ _ Hshaped) as Hdots. apply Forall_rev in Hdots.
    destruct (rev (top :: below)) as [| first l] eqn:Hrev.
    + exfalso. apply (f_equal (@rev string)) in Hrev.
      rewrite rev_involutive in Hrev. discriminate.
    + inversion Hfull; inversion Hdots; subst.
      destruct l as [| y l].
      * now apply prefix_dots_head.
      * rewrite concat_cons, append_associative. now apply prefix_dots_head.
Qed.

(** X14.  [doSafelyJoin] throws exactly when the joined segments make a
    relative path whose first segment is [".."] or a name that begins with
    two dots: a path that climbs out of the base is always refused, and so
    is a path that enters a directory or names a file such as ["..cache"];
    an absolute joined path is never refused. *)
Theorem doSafelyJoin_throws_iff (basePath : string) (paths : list string) :
  throws (doSafelyJoin basePath paths) = begins_with_dots (Path.join paths).
Proof.
  unfold doSafelyJoin.
  rewrite normalized_begins_with_dots, join_normalized.
  now destruct (begins_with_dots (Path.join paths)).
Qed.

Lemma split_concat_parts (l : list string) :
  l <> [] -> Path.split (String.concat "/" l) = flat_map Path.split l.
Proof.
  induction l as [| x [| y l] IH]; intros Hsome; [congruence | |].
  - cbn. now rewrite app_nil_r.
  - rewrite concat_cons, split_app_slash, IH by discriminate. reflexivity.
Qed.

Lemma shaped_top (top : string) (below : list string) :
  shaped true (top :: below) = true -> (top =? "..") = false -> named top = true.
Proof.
  cbn [shaped]. intros Hshaped Htop. rewrite Htop in Hshaped.
  now apply andb_prop in Hshaped as [Hnamed _].
Qed.

(** The kept segments hold a [".."] exactly when the walk climbs above its
    start. *)
Lemma escapes_kept (segs : list string) :
  forall stack,
    shaped true stack = true ->
    has_dots (fold_left (Path.push_segment true) segs stack)
      = has_dots stack || escapes (List.length (filter named stack)) segs.
Proof.
  induction segs as [| seg later IH]; intros stack Hshaped; cbn [fold_left escapes].
  - now rewrite orb_false_r.
  - rewrite IH by now apply push_shaped.
    unfold Path.push_segment.
    destruct ((seg =? "") || (seg =? ".")) eqn:Hskip; [reflexivity |].
    destruct (seg =? "..") eqn:Hdots.
    + destruct stack as [| top below]; [reflexivity |].
      destruct (top =? "..") eqn:Htop.
      * unfold has_dots. cbn [existsb]. rewrite String.eqb_refl.
        rewrite String.eqb_sym in Htop. now rewrite Htop.
      * pose proof (shaped_top _ _ Hshaped Htop) as Hnamed.
        unfold has_dots. cbn [existsb filter]. rewrite Hnamed. cbn [List.length].
        rewrite String.eqb_sym in Htop. now rewrite Htop.
    + assert (Hnamed : named seg = true).
      { unfold named. apply orb_false_elim in Hskip as [-> ->]. now rewrite Hdots. }
      unfold has_dots. cbn [existsb filter]. rewrite Hnamed. cbn [List.length].
      rewrite String.eqb_sym in Hdots. now rewrite Hdots.
Qed.

Lemma kept_from_segments (allow : bool) (segs : list string) (x : string) :
  forall stack,
    In x (fold_left (Path.push_segment allow) segs stack) -> In x stack \/ In x segs.
Proof.
  induction segs as [| seg later IH]; intros stack Hin; cbn [fold_left] in Hin;
    [now left |].
  apply IH in Hin as [Hin | Hin]; [| right; now right].
  unfold Path.push_segment in Hin.
  destruct ((seg =? "") || (seg =? ".")); [now left |].
  destruct (seg =? "..") eqn:Hdots.
  - apply String.eqb_eq in Hdots. subst seg.
    destruct stack as [| top below].
    + destruct allow; [| destruct Hin].
      destruct Hin as [<- | []]. right. now left.
    + destruct (top =? "..").
      * destruct allow; [| now left].
        destruct Hin as [<- | Hin]; [right; now left | now left].
      * left. now right.
  - destruct Hin as [<- | Hin]; [right; now left | now left].
Qed.

Lemma has_dots_In (stack : list string) :
  has_dots stack = true <-> In ".." stack.
Proof.
  unfold has_dots. rewrite existsb_exists. split.
  - intros (x & Hin & Hx). apply String.eqb_eq in Hx. now subst x.
  - intros Hin. exists "..". split; [exact Hin | reflexivity].
Qed.

(** What [doSafelyJoin] tests, on the segments as they are written. *)
Lemma child_begins_with_dots (paths : list string) :
  String.prefix ".." (Path.normalize (Path.join paths))
    = joined_relative paths &&
      match rev (kept (joined_relative paths) (raw_segments paths)) with
      | first :: _ => String.prefix ".." first
      | [] => false
      end.
Proof.
  rewrite join_normalized.
  unfold Path.join, joined_relative, raw_segments, joined_parts.
  destruct (filter (fun p => negb (p =? "")) paths) as [| first rest] eqn:Hparts;
    [reflexivity |].
  assert (Hfirst : first <> "").
  { assert (Hin : In first (filter (fun p => negb (p =? "")) paths))
      by (rewrite Hparts; now left).
    apply filter_In in Hin as [_ Hin]. intros ->. discriminate. }
  set (z := String.concat "/" (first :: rest)).
  assert (Hz : z <> "") by now apply concat_not_empty.
  assert (Habsolute : Path.isAbsolute z = Path.isAbsolute first)
    by (unfold Path.isAbsolute, z; now rewrite concat_first).
  destruct (normalize_facts z Hz) as (_ & Hsame & Hkept & _).
  rewrite normalized_begins_with_dots. unfold begins_with_dots, segments.
  rewrite Hsame, Hkept, Habsolute. unfold z.
  now rewrite split_concat_parts by discriminate.
Qed.

(** C10.  [safelyJoinPath] throws exactly when the normalization of the
    joined segments begins with [".."], whatever the base path is; the error
    names the base path and the segments.  When it returns, every base path
    it was given (the string, or both the inside and the outside path of a
    [MappedPath]) has been joined with that same normalized child path.  On
    the segments as they are written: when the joined arguments make a
    relative path that climbs above its start at some point, the call
    throws; and when the call throws, the joined arguments make a relative
    path that climbs above its start or holds a name beginning with two
    dots. *)
Theorem safelyJoinPath_spec (basePath : BasePath) (paths : list string) :
  let childPath := Path.normalize (Path.join paths) in
  throws (safelyJoinPath basePath paths) = String.prefix ".." childPath /\
  safelyJoinPath basePath paths =
    (if String.prefix ".." childPath
     then Throws {| err_basePath := first_base basePath; err_paths := paths |}
     else Returns (map_base (fun base => Path.join [base; childPath]) basePath)) /\
  (joined_relative paths = true ->
   escapes 0 (raw_segments paths) = true ->
   throws (safelyJoinPath basePath paths) = true) /\
  (throws (safelyJoinPath basePath paths) = true ->
   joined_relative paths = true /\
   (escapes 0 (raw_segments paths) = true \/
    exists seg,
      In seg (raw_segments paths) /\ named seg = true /\ String.prefix ".." seg = true)).
Proof.
  intros childPath.
  assert (Hthrows : throws (safelyJoinPath basePath paths) = String.prefix ".." childPath).
  { destruct basePath as [base | [out ins]]; unfold safelyJoinPath; cbn [inside outside];
      rewrite ?doSafelyJoin_unfold; fold childPath;
      destruct (String.prefix ".." childPath); reflexivity. }
  split; [exact Hthrows | split; [| split]].
  - destruct basePath as [base | [out ins]]; unfold safelyJoinPath; cbn [inside outside];
      rewrite ?doSafelyJoin_unfold; fold childPath;
      destruct (String.prefix ".." childPath); reflexivity.
  - intros Hrelative Hescapes. rewrite Hthrows. unfold childPath.
    rewrite child_begins_with_dots, Hrelative. cbn [andb].
    pose proof (escapes_kept (raw_segments paths) [] eq_refl) as Hdots.
    cbn [has_dots existsb filter List.length orb] in Hdots. rewrite Hescapes in Hdots.
    fold (kept true (raw_segments paths)) in Hdots.
    assert (Hshaped : shaped true (kept true (raw_segments paths)) = true)
      by now apply fold_push_shaped.
    destruct (shaped_dots _ _ Hshaped) as [Hnone | [_ [l Hrev]]].
    + exfalso. apply has_dots_In in Hdots.
      rewrite Forall_forall in Hnone. specialize (Hnone _ Hdots). discriminate.
    + now rewrite Hrev.
  - rewrite Hthrows. unfold childPath. rewrite child_begins_with_dots.
    intros Hboth. apply andb_prop in Hboth as [Hrelative Hprefix].
    split; [exact Hrelative |]. rewrite Hrelative in Hprefix.
    assert (Hshaped : shaped true (kept true (raw_segments paths)) = true)
      by now apply fold_push_shaped.
    destruct (rev (kept true (raw_segments paths))) as [| first l] eqn:Hrev;
      [discriminate |].
    assert (Hin : In first (kept true (raw_segments paths)))
      by (apply in_rev; rewrite Hrev; now left).
    destruct (first =? "..") eqn:Hfirst.
    + left. apply String.eqb_eq in Hfirst. subst first.
      pose proof (escapes_kept (raw_segments paths) [] eq_refl) as Hdots.
      cbn [has_dots existsb filter List.length orb] in Hdots.
      rewrite <- Hdots. now apply has_dots_In.
    + right. exists first. split; [| split; [| exact Hprefix]].
      * apply kept_from_segments in Hin as [[] | Hin]. exact Hin.
      * pose proof (shaped_not_empty _ _ Hshaped) as Hfull.
        pose proof (shaped_not_dot _ _ Hshaped) as Hdot.
        rewrite Forall_forall in Hfull, Hdot.
        unfold named. rewrite Hfirst.
        destruct (String.eqb_spec first "") as [-> | _]; [now apply Hfull in Hin |].
        destruct (String.eqb_spec first ".") as [-> | _]; [now apply Hdot in Hin |].
        reflexivity.
Qed.

(** A child path that climbs above the base after going down into it is
    refused, under a base that plays no part in the check. *)
Lemma safelyJoinPath_spec_witness :
  joined_relative ["data"; "../../etc"; "passwd"] = true /\
  escapes 0 (raw_segments ["data"; "../../etc"; "passwd"]) = true /\
  throws (safelyJoinPath (Plain "/judge/task") ["data"; "../../etc"; "passwd"]) = true.
Proof.
  assert (H1 : joined_relative ["data"; "../../etc"; "passwd"] = true) by reflexivity.
  assert (H2 : escapes 0 (raw_segments ["data"; "../../etc"; "passwd"]) = true)
    by reflexivity.
  split; [exact H1 | split; [exact H2 |]].
  exact (proj1 (proj2 (proj2 (safelyJoinPath_spec (Plain "/judge/task")
                                ["data"; "../../etc"; "passwd"]))) H1 H2).
Defined.
